(** * drawinglayer::attribute::FillGradientAttribute

    A shallow embedding of
    [drawinglayer/source/attribute/fillgradientattribute.cxx]: the
    constructor of [ImpFillGradientAttribute], which normalises a start
    colour, an end colour and optional colour steps into the stored
    [maColorSteps], and the handle class [FillGradientAttribute] with its
    process-wide default instance, [isDefault] and [operator==].

    The file is organised as follows.
    - the [double] interface the code relies on, and [basegfx::fTools];
    - [BColor], [ColorStep], [ImpFillGradientAttribute];
    - the constructor, written with the two read/write heads of the source;
    - a list-level description of what the constructor computes, and the
      proof that the two agree;
    - the handle class over an explicit store of implementation objects;
    - [std::sort] as the GNU C++ library implements it;
    - the properties of the constructor and of the handle class;
    - the instances over IEEE doubles and over the rationals, and the
      properties at concrete inputs. *)

From Stdlib Require Import QArith Qabs Lqa Lia Bool PrimFloat.
From stdpp Require Import base list sorting gmap.

Set Default Proof Using "Type".

(** ** The [double] interface

    The source uses [double] through the literals [0.0] and [1.0], the
    comparisons [<] and [==], and [basegfx::fTools::equal], the equality
    within a tolerance that is declared outside the source file.  They are
    taken as parameters, so that every statement below holds for any
    carrier that provides them. *)

Class DoubleOps (double : Type) := {
  d_zero : double;                          (* the literal 0.0 *)
  d_one : double;                           (* the literal 1.0 *)
  d_lt : double -> double -> bool;          (* operator<  *)
  d_eq : double -> double -> bool;          (* operator== *)
  fTools_equal : double -> double -> bool   (* basegfx::fTools::equal *)
}.

(** Modelled from the spec: [basegfx::fTools::lessOrEqual] and
    [basegfx::fTools::moreOrEqual] (basegfx/numeric/ftools.hxx, not part of
    the source file) are "less or equal within epsilon" and "greater or
    equal within epsilon": the exact comparison, or equality within the
    tolerance of [fTools::equal]. *)
Module fTools.
Section fTools.
Context `{DoubleOps double}.

Definition equal (a b : double) : bool := fTools_equal a b.

Definition lessOrEqual (a b : double) : bool := d_lt a b || equal a b.

Definition moreOrEqual (a b : double) : bool := d_lt b a || equal a b.

End fTools.
End fTools.

(** ** Colours, colour steps and the implementation record *)

(** Modelled from the spec: [GradientStyle] is declared outside the source
    file; the spec names its variants. *)
Inductive GradientStyle :=
  | Linear | Axial | Radial | Elliptical | Square | Rect.

Definition GradientStyle_eqb (a b : GradientStyle) : bool :=
  match a, b with
  | Linear, Linear | Axial, Axial | Radial, Radial
  | Elliptical, Elliptical | Square, Square | Rect, Rect => true
  | _, _ => false
  end.

(** ** An instance of the interface: IEEE binary64

    The [double] of the source itself, with the comparisons of IEEE 754:
    [nan] is not [==] to itself.  The tolerance of [fTools::equal] is
    [2^-48] of the smaller magnitude. *)

Definition float_e48 : float := 0x1p-48%float.

Definition float_approxEqual (a b : float) : bool :=
  PrimFloat.eqb a b
  || (PrimFloat.ltb (PrimFloat.abs (a - b)) (float_e48 * PrimFloat.abs a)
      && PrimFloat.ltb (PrimFloat.abs (a - b)) (float_e48 * PrimFloat.abs b))%float.

#[export] Instance float_double : DoubleOps float := {|
  d_zero := 0%float;
  d_one := 1%float;
  d_lt := PrimFloat.ltb;
  d_eq := PrimFloat.eqb;
  fTools_equal := float_approxEqual
|}.

(** ** An instance of the interface: rational offsets

    Every finite [double] is a rational number and [<], [==] on such values
    are the exact comparisons, so the rationals with a relative tolerance
    give a carrier on which the constructor can be run.  The tolerance is
    [2^-48] of the smaller magnitude, the precision [rtl::math::approxEqual]
    works to. *)

Definition Q_lt (a b : Q) : bool := negb (Qle_bool b a).

Definition e48 : Q := 1 # 281474976710656.     (* 2^-48 *)

Definition Q_approxEqual (a b : Q) : bool :=
  Qeq_bool a b
  || (Q_lt (Qabs (a - b)) (e48 * Qabs a) && Q_lt (Qabs (a - b)) (e48 * Qabs b)).

#[export] Instance Q_double : DoubleOps Q := {|
  d_zero := 0%Q;
  d_one := 1%Q;
  d_lt := Q_lt;
  d_eq := Qeq_bool;
  fTools_equal := Q_approxEqual
|}.

Section Model.
Context {double : Type} `{DoubleOps double}.

(** Modelled from the spec: [basegfx::BColor] is an RGB triple of
    [double] channels, compared channel by channel without tolerance;
    [BColor()] is black. *)
Record BColor := MkBColor {
  getRed : double;
  getGreen : double;
  getBlue : double
}.

Definition BColor_default : BColor := MkBColor d_zero d_zero d_zero.

Definition BColor_eq (a b : BColor) : bool :=
  d_eq (getRed a) (getRed b)
  && d_eq (getGreen a) (getGreen b)
  && d_eq (getBlue a) (getBlue b).

Definition BColor_ne (a b : BColor) : bool := negb (BColor_eq a b).

(** Modelled from the spec: [basegfx::ColorStep] is the pair of an offset
    and a colour; [operator<] orders by offset only, [operator==]
    requires offset and colour to match exactly. *)
Record ColorStep := MkColorStep {
  getOffset : double;
  getColor : BColor
}.

Definition ColorStep_lt (a b : ColorStep) : bool :=
  d_lt (getOffset a) (getOffset b).

Definition ColorStep_eq (a b : ColorStep) : bool :=
  d_eq (getOffset a) (getOffset b) && BColor_eq (getColor a) (getColor b).

Definition ColorStep_default : ColorStep := MkColorStep d_zero BColor_default.

(** [basegfx::ColorSteps] is [std::vector<ColorStep>]. *)
Definition ColorSteps := list ColorStep.

(** [operator==] of [std::vector]: same size, and equal element by
    element. *)
Fixpoint ColorSteps_eq (a b : ColorSteps) : bool :=
  match a, b with
  | [], [] => true
  | x :: a', y :: b' => ColorStep_eq x y && ColorSteps_eq a' b'
  | _, _ => false
  end.

Record ImpFillGradientAttribute := MkImp {
  mfBorder : double;
  mfOffsetX : double;
  mfOffsetY : double;
  mfAngle : double;
  maColorSteps : ColorSteps;
  meStyle : GradientStyle;
  mnSteps : Z                 (* sal_uInt16, only stored and compared *)
}.

(** ** Vector operations used by the constructor *)

(** [v[i]]; the constructor only reads inside the vector. *)
Definition at_ (v : ColorSteps) (i : nat) : ColorStep :=
  nth i v ColorStep_default.

(** [v.resize(n)]: truncate, or pad with default-constructed steps. *)
Definition resize (n : nat) (v : ColorSteps) : ColorSteps :=
  take n v ++ replicate (n - length v) ColorStep_default.

(** ** The constructor *)

(** [std::sort] on a range of colour steps.  Its contract is the one of
    the C++ standard: the result is a rearrangement of the range in which
    no element is less than an earlier one.  The relative order of
    elements that compare equivalent is not specified. *)
Variable std_sort : ColorSteps -> ColorSteps.

Definition not_greater (a b : ColorStep) : Prop := ColorStep_lt b a = false.

Definition std_sort_sorts : Prop :=
  forall l, StronglySorted not_greater (std_sort l).

Definition std_sort_permutes : Prop :=
  forall l, Permutation (std_sort l) l.

(** The state of the compaction loop: the data band and its two heads. *)
Record band := MkBand {
  vec : ColorSteps;
  curr : nat;
  next : nat;
  bAllTheSameColor : bool
}.

(** [continue]: only the loop increment [next++] happens. *)
Definition continue (st : band) : band :=
  MkBand (vec st) (curr st) (S (next st)) (bAllTheSameColor st).

(** One iteration of the loop body, followed by [next++]. *)
Definition loop_body (rStartColor : BColor) (st : band) : band :=
  let fNextOffset := getOffset (at_ (vec st) (next st)) in
  if fTools.lessOrEqual fNextOffset d_zero then continue st
  else if fTools.moreOrEqual fNextOffset d_one then continue st
  else
    let fCurrOffset := getOffset (at_ (vec st) (curr st)) in
    if fTools.equal fNextOffset fCurrOffset then continue st
    else
      let curr' := S (curr st) in
      let vec' :=
        if decide (curr' <> next st)
        then <[curr' := at_ (vec st) (next st)]> (vec st)
        else vec st in
      MkBand vec' curr' (S (next st))
        (bAllTheSameColor st && BColor_eq (getColor (at_ vec' curr')) rStartColor).

(** [for(; next < maColorSteps.size(); next++)]. *)
Fixpoint run_loop (rStartColor : BColor) (fuel : nat) (st : band) : band :=
  match fuel with
  | O => st
  | S fuel' =>
      if next st <? length (vec st)
      then run_loop rStartColor fuel' (loop_body rStartColor st)
      else st
  end.

(** The branch taken without colour steps. *)
Definition without_steps (rStartColor rEndColor : BColor) (v : ColorSteps)
  : ColorSteps :=
  if BColor_ne rStartColor rEndColor
  then v ++ [MkColorStep d_one rEndColor]
  else v.

(** The colour steps the constructor leaves in [maColorSteps].
    [pColorSteps] is [None] for a null pointer. *)
Definition build_steps (rStartColor rEndColor : BColor)
    (pColorSteps : option ColorSteps) : ColorSteps :=
  let v0 := [MkColorStep d_zero rStartColor] in
  match pColorSteps with
  | Some ((_ :: _) as raw) =>
      let v1 := v0 ++ raw in
      let v2 := take 1 v1 ++ std_sort (drop 1 v1) in
      let st := run_loop rStartColor (length v2)
                  (MkBand v2 0 1 (BColor_eq rStartColor rEndColor)) in
      if bAllTheSameColor st then resize 1 (vec st)
      else
        let curr' := S (curr st) in
        let v3 := if decide (curr' <> length (vec st))
                  then resize curr' (vec st) else vec st in
        if (1 <? curr') || BColor_ne rStartColor rEndColor
        then v3 ++ [MkColorStep d_one rEndColor]
        else v3
  | _ => without_steps rStartColor rEndColor v0
  end.

Definition ImpFillGradientAttribute_ctor
    (eStyle : GradientStyle) (fBorder fOffsetX fOffsetY fAngle : double)
    (rStartColor rEndColor : BColor) (pColorSteps : option ColorSteps)
    (nSteps : Z) : ImpFillGradientAttribute :=
  {| mfBorder := fBorder;
     mfOffsetX := fOffsetX;
     mfOffsetY := fOffsetY;
     mfAngle := fAngle;
     maColorSteps := build_steps rStartColor rEndColor pColorSteps;
     meStyle := eStyle;
     mnSteps := nSteps |}.

(** The default constructor. *)
Definition ImpFillGradientAttribute_default : ImpFillGradientAttribute :=
  {| mfBorder := d_zero;
     mfOffsetX := d_zero;
     mfOffsetY := d_zero;
     mfAngle := d_zero;
     maColorSteps := [MkColorStep d_zero BColor_default];
     meStyle := Linear;
     mnSteps := 0 |}.

Definition hasSingleColor (a : ImpFillGradientAttribute) : bool :=
  length (maColorSteps a) <? 2.

Definition Imp_eq (a b : ImpFillGradientAttribute) : bool :=
  GradientStyle_eqb (meStyle a) (meStyle b)
  && d_eq (mfBorder a) (mfBorder b)
  && d_eq (mfOffsetX a) (mfOffsetX b)
  && d_eq (mfOffsetY a) (mfOffsetY b)
  && d_eq (mfAngle a) (mfAngle b)
  && ColorSteps_eq (maColorSteps a) (maColorSteps b)
  && (mnSteps a =? mnSteps b)%Z.

(** ** What the loop computes, on lists

    [survivors last l] scans the sorted steps [l] from left to right and
    keeps a step unless its offset is [<= 0.0] or [>= 1.0] within the
    tolerance, or equal within the tolerance to [last], the offset of the
    step kept most recently. *)
Fixpoint survivors (last : double) (l : ColorSteps) : ColorSteps :=
  match l with
  | [] => []
  | s :: l' =>
      if fTools.lessOrEqual (getOffset s) d_zero then survivors last l'
      else if fTools.moreOrEqual (getOffset s) d_one then survivors last l'
      else if fTools.equal (getOffset s) last then survivors last l'
      else s :: survivors (getOffset s) l'
  end.

Definition all_color (c : BColor) (l : ColorSteps) : bool :=
  forallb (fun s => BColor_eq (getColor s) c) l.

(** The raw steps that survive the filtering. *)
Definition kept (pColorSteps : option ColorSteps) : ColorSteps :=
  match pColorSteps with
  | Some ((_ :: _) as raw) => survivors d_zero (std_sort raw)
  | _ => []
  end.

(** The flat collapse: every colour seen equals the start colour. *)
Definition flat (rStartColor rEndColor : BColor)
    (pColorSteps : option ColorSteps) : bool :=
  BColor_eq rStartColor rEndColor && all_color rStartColor (kept pColorSteps).

Definition canonical (rStartColor rEndColor : BColor)
    (pColorSteps : option ColorSteps) : ColorSteps :=
  let first := MkColorStep d_zero rStartColor in
  let last := MkColorStep d_one rEndColor in
  match pColorSteps with
  | Some (_ :: _) =>
      let k := kept pColorSteps in
      if flat rStartColor rEndColor pColorSteps then [first]
      else first :: k ++
             (if (0 <? length k) || BColor_ne rStartColor rEndColor
              then [last] else [])
  | _ => first :: (if BColor_ne rStartColor rEndColor then [last] else [])
  end.


(** ** A stable sort

    A function that meets the contract of [std::sort] and keeps steps with
    equal offsets in their order, as [std::stable_sort] would.  [sort_by]
    inserts the elements one by one from the back of the range;
    [goes_before x y] decides whether the element [x] being inserted stops
    in front of [y].  With [before_or_level] an element stops in front of
    the first one that is not less than it. *)
Fixpoint insert_by (goes_before : ColorStep -> ColorStep -> bool)
    (x : ColorStep) (l : ColorSteps) : ColorSteps :=
  match l with
  | [] => [x]
  | y :: l' =>
      if goes_before x y then x :: y :: l'
      else y :: insert_by goes_before x l'
  end.

Fixpoint sort_by (goes_before : ColorStep -> ColorStep -> bool)
    (l : ColorSteps) : ColorSteps :=
  match l with
  | [] => []
  | x :: l' => insert_by goes_before x (sort_by goes_before l')
  end.

Definition before_or_level (x y : ColorStep) : bool := negb (ColorStep_lt y x).

(** ** The handle class [FillGradientAttribute]

    Modelled from the spec: [FillGradientAttribute] holds its data through
    [o3tl::cow_wrapper<ImpFillGradientAttribute>] (declared outside the
    source file): a handle that shares an immutable implementation object.
    Constructing a wrapper from a value allocates a new object, copying a
    wrapper shares the object, [same_object] tests storage identity, and
    equality compares identity first and the values otherwise.

    Objects live in a store indexed by address.  [SINGLETON] is the
    function-local static of [theGlobalDefault]: absent until the first
    call, which constructs it with the default constructor. *)
Abbreviation address := nat (only parsing).

Record Store := MkStore {
  objects : gmap nat ImpFillGradientAttribute;
  fresh : nat;                 (* the address the next allocation returns *)
  SINGLETON : option nat
}.

Definition empty_store : Store := MkStore ∅ 0 None.

(** Calls thread the store. *)
Definition M (A : Type) : Type := Store -> A * Store.

Definition ret {A : Type} (a : A) : M A := fun st => (a, st).

Definition bind {A B : Type} (m : M A) (k : A -> M B) : M B :=
  fun st => let '(a, st') := m st in k a st'.

Local Notation "x <- m ;; k" := (bind m (fun x => k))
  (at level 100, m at next level, right associativity).

Definition new_impl (v : ImpFillGradientAttribute) : M address :=
  fun st =>
    (fresh st,
     MkStore (<[fresh st := v]> (objects st)) (S (fresh st)) (SINGLETON st)).

Definition theGlobalDefault : M address :=
  fun st =>
    match SINGLETON st with
    | Some a => (a, st)
    | None =>
        let '(a, st') := new_impl ImpFillGradientAttribute_default st in
        (a, MkStore (objects st') (fresh st') (Some a))
    end.

Record FillGradientAttribute := MkHandle {
  mpFillGradientAttribute : address
}.

Definition same_object (a b : address) : bool := a =? b.

(** [*p]; the handles the constructors return point into the store. *)
Definition deref (st : Store) (a : address) : ImpFillGradientAttribute :=
  default ImpFillGradientAttribute_default (objects st !! a).

Definition cow_wrapper_eq (a b : address) : M bool :=
  fun st => (same_object a b || Imp_eq (deref st a) (deref st b), st).

Definition FillGradientAttribute_ctor
    (eStyle : GradientStyle) (fBorder fOffsetX fOffsetY fAngle : double)
    (rStartColor rEndColor : BColor) (pColorSteps : option ColorSteps)
    (nSteps : Z) : M FillGradientAttribute :=
  a <- new_impl (ImpFillGradientAttribute_ctor eStyle fBorder fOffsetX
                   fOffsetY fAngle rStartColor rEndColor pColorSteps nSteps) ;;
  ret (MkHandle a).

Definition FillGradientAttribute_default : M FillGradientAttribute :=
  a <- theGlobalDefault ;; ret (MkHandle a).

Definition isDefault (this : FillGradientAttribute) : M bool :=
  a <- theGlobalDefault ;;
  ret (same_object (mpFillGradientAttribute this) a).

Definition operator_eq (this rCandidate : FillGradientAttribute) : M bool :=
  c <- isDefault rCandidate ;;
  t <- isDefault this ;;
  if negb (eqb c t) then ret false
  else cow_wrapper_eq (mpFillGradientAttribute rCandidate)
                      (mpFillGradientAttribute this).

(** The public calls, to speak about what happens between two of them. *)
Inductive call :=
  | CallCtor (eStyle : GradientStyle) (fBorder fOffsetX fOffsetY fAngle : double)
      (rStartColor rEndColor : BColor) (pColorSteps : option ColorSteps)
      (nSteps : Z)
  | CallDefault
  | CallIsDefault (this : FillGradientAttribute)
  | CallEq (this rCandidate : FillGradientAttribute).

Definition exec (st : Store) (c : call) : Store :=
  match c with
  | CallCtor eStyle fBorder fOffsetX fOffsetY fAngle rStartColor rEndColor
      pColorSteps nSteps =>
      snd (FillGradientAttribute_ctor eStyle fBorder fOffsetX fOffsetY fAngle
             rStartColor rEndColor pColorSteps nSteps st)
  | CallDefault => snd (FillGradientAttribute_default st)
  | CallIsDefault this => snd (isDefault this st)
  | CallEq this rCandidate => snd (operator_eq this rCandidate st)
  end.

Definition exec_all (st : Store) (cs : list call) : Store := foldl exec st cs.

(** Addresses in use lie below [fresh], and the singleton, once
    constructed, is the default-constructed object.  The empty store of a
    starting process is such a store, and every call keeps it so. *)
Definition store_ok (st : Store) : Prop :=
  (forall a, is_Some (objects st !! a) -> a < fresh st)
  /\ (forall a, SINGLETON st = Some a ->
                objects st !! a = Some ImpFillGradientAttribute_default).

(** An object in the store that is not the singleton. *)
Definition other_object (st : Store) (a : nat) : Prop :=
  is_Some (objects st !! a) /\ SINGLETON st <> Some a.

(** Calls only add to the store. *)
Definition extends (st st' : Store) : Prop :=
  (forall a, SINGLETON st = Some a -> SINGLETON st' = Some a)
  /\ (forall a v, objects st !! a = Some v -> objects st' !! a = Some v).

Definition valid (st : Store) (h : FillGradientAttribute) : Prop :=
  is_Some (objects st !! mpFillGradientAttribute h).

(** ** Vocabulary of the properties *)

(** What the interface is assumed to satisfy.  All of these hold for
    [double] values other than NaN. *)
Definition lt_irreflexive : Prop :=
  forall x, d_lt x x = false.

Definition lt_transitive : Prop :=
  forall x y z, d_lt x y = true -> d_lt y z = true -> d_lt x z = true.

Definition lt_negatively_transitive : Prop :=
  forall x y z, d_lt x z = true -> d_lt x y = true \/ d_lt y z = true.

Definition eq_reflexive : Prop :=
  forall x, d_eq x x = true.

(** Values of which neither is less than the other are equal within the
    tolerance. *)
Definition equal_covers_level : Prop :=
  forall x y, d_lt x y = false -> d_lt y x = false -> fTools_equal x y = true.

Definition equal_symmetric : Prop :=
  forall x y, fTools_equal x y = fTools_equal y x.

(** The tolerance does not tell apart values of which neither is less than
    the other. *)
Definition equal_respects_level : Prop :=
  forall x y z,
    d_lt x y = false -> d_lt y x = false -> fTools_equal x z = fTools_equal y z.

(** Strictly between 0.0 and 1.0, a value between two values that are
    equal within the tolerance is equal within the tolerance to the upper
    one. *)
Definition equal_convex : Prop :=
  forall x y z,
    d_lt d_zero x = true -> d_lt x y = true ->
    d_lt y z = true -> d_lt z d_one = true ->
    fTools_equal z x = true -> fTools_equal z y = true.

Definition zero_below_one : Prop :=
  d_lt d_zero d_one = true /\ fTools_equal d_one d_zero = false.

(** Two steps in ascending order and not within the tolerance of each
    other. *)
Definition strictly_apart (a b : ColorStep) : Prop :=
  d_lt (getOffset a) (getOffset b) = true
  /\ fTools.equal (getOffset a) (getOffset b) = false
  /\ fTools.equal (getOffset b) (getOffset a) = false.

(** [strictly_apart], between steps that lie strictly between 0.0 and
    1.0. *)
Definition between (s : ColorStep) : Prop :=
  d_lt d_zero (getOffset s) = true /\ d_lt (getOffset s) d_one = true.

Definition apart_between (a b : ColorStep) : Prop :=
  strictly_apart a b /\ between a /\ between b.

(** A step whose offset is neither [<= 0.0] nor [>= 1.0] within the
    tolerance. *)
Definition inside (s : ColorStep) : Prop :=
  fTools.lessOrEqual (getOffset s) d_zero = false
  /\ fTools.moreOrEqual (getOffset s) d_one = false.

(** Every two steps of [l] have the same colour. *)
Definition one_color (l : ColorSteps) : Prop :=
  forall s t, In s l -> In t l -> BColor_eq (getColor s) (getColor t) = true.

(** The steps strictly between the first and the last one. *)
Definition intermediate (l : ColorSteps) : ColorSteps := removelast (tail l).

(** Offsets of which neither is less than the other: the offsets [std::sort]
    treats as equal (for values other than NaN, those with [==]). *)
Definition same_offset (a b : double) : bool :=
  negb (d_lt a b) && negb (d_lt b a).

(** The first step of [l] with the offset [o], and all of them. *)
Fixpoint first_at (o : double) (l : ColorSteps) : option ColorStep :=
  match l with
  | [] => None
  | t :: l' => if same_offset (getOffset t) o then Some t else first_at o l'
  end.

Fixpoint all_at (o : double) (l : ColorSteps) : ColorSteps :=
  match l with
  | [] => []
  | t :: l' =>
      if same_offset (getOffset t) o then t :: all_at o l' else all_at o l'
  end.

(** The retained step is the earliest raw step with its offset. *)
Definition earliest_wins : Prop :=
  forall rStartColor rEndColor raw s,
    In s (intermediate (build_steps rStartColor rEndColor (Some raw))) ->
    first_at (getOffset s) raw = Some s.


(** ** The loop with every access checked

    [operator[]] of [std::vector] does not check its index; an access
    outside the vector is undefined behaviour.  The body is written once
    more with each read and write of the source checked against the size of
    the vector, [None] standing for an access outside it. *)
Definition loop_body_checked (rStartColor : BColor) (st : band)
    : option band :=
  sNext ← vec st !! next st;
  let fNextOffset := getOffset sNext in
  if fTools.lessOrEqual fNextOffset d_zero then Some (continue st)
  else if fTools.moreOrEqual fNextOffset d_one then Some (continue st)
  else
    sCurr ← vec st !! curr st;
    if fTools.equal fNextOffset (getOffset sCurr) then Some (continue st)
    else
      let curr' := S (curr st) in
      vec' ← (if decide (curr' <> next st)
              then (if decide (curr' < length (vec st))
                    then Some (<[curr' := sNext]> (vec st))
                    else None)
              else Some (vec st));
      sKept ← vec' !! curr';
      Some (MkBand vec' curr' (S (next st))
              (bAllTheSameColor st
               && BColor_eq (getColor sKept) rStartColor)).

Fixpoint run_loop_checked (rStartColor : BColor) (fuel : nat) (st : band)
    : option band :=
  match fuel with
  | O => Some st
  | S fuel' =>
      if next st <? length (vec st)
      then st' ← loop_body_checked rStartColor st;
           run_loop_checked rStartColor fuel' st'
      else Some st
  end.

(** ** The remaining members of [FillGradientAttribute]

    The copy constructor is defaulted: the new handle shares the object.
    The accessors and [hasSingleColor] forward to the implementation
    object, whose accessors return its fields. *)
Definition FillGradientAttribute_copy (rCandidate : FillGradientAttribute)
    : M FillGradientAttribute :=
  ret (MkHandle (mpFillGradientAttribute rCandidate)).

Definition forward {A : Type} (f : ImpFillGradientAttribute -> A)
    (this : FillGradientAttribute) : M A :=
  fun st => (f (deref st (mpFillGradientAttribute this)), st).

Definition FillGradientAttribute_hasSingleColor := forward hasSingleColor.

Definition getColorSteps := forward maColorSteps.

Definition getBorder := forward mfBorder.

Definition getOffsetX := forward mfOffsetX.

Definition getOffsetY := forward mfOffsetY.

Definition getAngle := forward mfAngle.

Definition getStyle := forward meStyle.

Definition getSteps := forward mnSteps.

(** ** Vocabulary of the further properties *)

Definition eq_symmetric : Prop :=
  forall x y, d_eq x y = d_eq y x.

Definition eq_transitive : Prop :=
  forall x y z, d_eq x y = true -> d_eq y z = true -> d_eq x z = true.

(** [inside], as a test. *)
Definition insideb (s : ColorStep) : bool :=
  negb (fTools.lessOrEqual (getOffset s) d_zero)
  && negb (fTools.moreOrEqual (getOffset s) d_one).

(** The steps of [l] that lie inside the range, in their order. *)
Definition in_range (l : list ColorStep) : list ColorStep :=
  filter (fun s => insideb s = true) l.

(** Steps of [l] with equal offsets are equal, that is, have the same
    colour as well. *)
Definition ties_agree (l : ColorSteps) : Prop :=
  forall x y,
    In x l -> In y l ->
    same_offset (getOffset x) (getOffset y) = true -> x = y.

(** Two adjacent steps in ascending order, the second not equal within the
    tolerance to the first. *)
Definition ascending_apart (a b : ColorStep) : Prop :=
  d_lt (getOffset a) (getOffset b) = true
  /\ fTools.equal (getOffset b) (getOffset a) = false.

(** Raw steps as the constructor leaves them: inside the range, ascending,
    and neighbours apart. *)
Definition well_formed (l : ColorSteps) : Prop :=
  Forall inside l /\ Sorted ascending_apart l.


(** ** [operator==] as it is described

    A second account of equality between two handles, written from the
    description of [operator==] and not from its code, so that the two can
    be compared.  Two values of type [double] compare equal when [==] holds
    of them.  Two colour steps compare equal when offset, red, green and
    blue do; two objects when style, border, offsets, angle and step count
    do and the colour steps do one by one. *)
Definition steps_compare_equal (s t : ColorStep) : Prop :=
  d_eq (getOffset s) (getOffset t) = true
  /\ d_eq (getRed (getColor s)) (getRed (getColor t)) = true
  /\ d_eq (getGreen (getColor s)) (getGreen (getColor t)) = true
  /\ d_eq (getBlue (getColor s)) (getBlue (getColor t)) = true.

Definition fields_compare_equal (a b : ImpFillGradientAttribute) : Prop :=
  meStyle a = meStyle b
  /\ d_eq (mfBorder a) (mfBorder b) = true
  /\ d_eq (mfOffsetX a) (mfOffsetX b) = true
  /\ d_eq (mfOffsetY a) (mfOffsetY b) = true
  /\ d_eq (mfAngle a) (mfAngle b) = true
  /\ mnSteps a = mnSteps b
  /\ Forall2 steps_compare_equal (maColorSteps a) (maColorSteps b).

(** The default instance in a store: the handle the default constructor
    returns there. *)
Definition default_instance (st : Store) (h : FillGradientAttribute) : Prop :=
  h = fst (FillGradientAttribute_default st).

(** Equal as described: both are the default instance, or neither is and
    all fields compare equal. *)
Definition equal_as_described (st : Store)
    (this rCandidate : FillGradientAttribute) : Prop :=
  (default_instance st this /\ default_instance st rCandidate)
  \/ (~ default_instance st this
      /\ ~ default_instance st rCandidate
      /\ fields_compare_equal
           (deref st (mpFillGradientAttribute rCandidate))
           (deref st (mpFillGradientAttribute this))).


(** ** [std::sort] of the GNU C++ library

    [std::sort] is not part of the source file.  The properties that hold
    of every sort take it as the parameter [std_sort]; to run the
    constructor as a GCC build runs it, what follows is [std::__sort] of
    libstdc++ (bits/stl_algo.h, bits/stl_heap.h), function by function: an
    introsort that partitions ranges of more than 16 elements around a
    median of three, falls back to a heap sort when the depth limit is
    used up, and finishes with an insertion sort.  Iterators are indices
    into the vector.  The loops of the library have no counter; each moves
    an iterator or an index across the range, so the length of the vector
    bounds their iterations and is given as fuel. *)

(** [__comp(__i, __j)] on iterators: [*__i < *__j]. *)
Definition stl_comp (v : ColorSteps) (i j : nat) : bool :=
  ColorStep_lt (at_ v i) (at_ v j).

Definition stl_iter_swap (v : ColorSteps) (i j : nat) : ColorSteps :=
  <[j := at_ v i]> (<[i := at_ v j]> v).

Definition stl_move_median_to_first (v : ColorSteps) (result a b c : nat)
    : ColorSteps :=
  if stl_comp v a b then
    if stl_comp v b c then stl_iter_swap v result b
    else if stl_comp v a c then stl_iter_swap v result c
    else stl_iter_swap v result a
  else if stl_comp v a c then stl_iter_swap v result a
  else if stl_comp v b c then stl_iter_swap v result c
  else stl_iter_swap v result b.

(** [while (__comp(__first, __pivot)) ++__first;] *)
Fixpoint stl_advance_first (fuel : nat) (v : ColorSteps) (first pivot : nat)
    : nat :=
  match fuel with
  | O => first
  | S fuel' =>
      if stl_comp v first pivot
      then stl_advance_first fuel' v (S first) pivot
      else first
  end.

(** [while (__comp(__pivot, __last)) --__last;] *)
Fixpoint stl_retreat_last (fuel : nat) (v : ColorSteps) (last pivot : nat)
    : nat :=
  match fuel with
  | O => last
  | S fuel' =>
      if stl_comp v pivot last
      then stl_retreat_last fuel' v (last - 1) pivot
      else last
  end.

Fixpoint stl_unguarded_partition (fuel : nat) (v : ColorSteps)
    (first last pivot : nat) : ColorSteps * nat :=
  match fuel with
  | O => (v, first)
  | S fuel' =>
      let first := stl_advance_first (length v) v first pivot in
      let last := stl_retreat_last (length v) v (last - 1) pivot in
      if negb (first <? last) then (v, first)
      else stl_unguarded_partition fuel' (stl_iter_swap v first last)
             (S first) last pivot
  end.

Definition stl_unguarded_partition_pivot (v : ColorSteps) (first last : nat)
    : ColorSteps * nat :=
  let mid := first + (last - first) / 2 in
  let v := stl_move_median_to_first v first (first + 1) mid (last - 1) in
  stl_unguarded_partition (length v) v (first + 1) last first.

(** The loop of [__unguarded_linear_insert]: [val] travels down from
    [last] past every element it is less than. *)
Fixpoint stl_linear_insert_loop (fuel : nat) (v : ColorSteps)
    (val : ColorStep) (last : nat) : ColorSteps :=
  match fuel with
  | O => <[last := val]> v
  | S fuel' =>
      let next := last - 1 in
      if ColorStep_lt val (at_ v next)
      then stl_linear_insert_loop fuel' (<[last := at_ v next]> v) val next
      else <[last := val]> v
  end.

Definition stl_unguarded_linear_insert (v : ColorSteps) (last : nat)
    : ColorSteps :=
  stl_linear_insert_loop (length v) v (at_ v last) last.

(** One round of the loop of [__insertion_sort], for the iterator [i]:
    an element less than the first one is moved to the front, the elements
    before it moving up by one ([move_backward]); any other is inserted
    unguarded. *)
Definition stl_insertion_step (first : nat) (v : ColorSteps) (i : nat)
    : ColorSteps :=
  if stl_comp v i first then
    take first v ++ at_ v i :: take (i - first) (drop first v) ++ drop (S i) v
  else stl_unguarded_linear_insert v i.

Definition stl_insertion_sort (v : ColorSteps) (first last : nat)
    : ColorSteps :=
  if first =? last then v
  else foldl (stl_insertion_step first) v (seq (S first) (last - S first)).

Definition stl_unguarded_insertion_sort (v : ColorSteps) (first last : nat)
    : ColorSteps :=
  foldl stl_unguarded_linear_insert v (seq first (last - first)).

Definition S_threshold : nat := 16.

Definition stl_final_insertion_sort (v : ColorSteps) (first last : nat)
    : ColorSteps :=
  if S_threshold <? last - first then
    stl_unguarded_insertion_sort
      (stl_insertion_sort v first (first + S_threshold))
      (first + S_threshold) last
  else stl_insertion_sort v first last.

(** The heap routines index from [first] with signed distances; [/] of C++
    truncates towards zero. *)
Definition stl_get (v : ColorSteps) (first : nat) (i : Z) : ColorStep :=
  at_ v (first + Z.to_nat i).

Definition stl_set (v : ColorSteps) (first : nat) (i : Z) (x : ColorStep)
    : ColorSteps :=
  <[first + Z.to_nat i := x]> v.

Fixpoint stl_push_heap (fuel : nat) (v : ColorSteps) (first : nat)
    (holeIndex topIndex : Z) (value : ColorStep) : ColorSteps :=
  match fuel with
  | O => stl_set v first holeIndex value
  | S fuel' =>
      let parent := Z.quot (holeIndex - 1) 2 in
      if (topIndex <? holeIndex)%Z
         && ColorStep_lt (stl_get v first parent) value
      then stl_push_heap fuel'
             (stl_set v first holeIndex (stl_get v first parent))
             first parent topIndex value
      else stl_set v first holeIndex value
  end.

(** The first loop of [__adjust_heap]: the hole moves down to the larger
    child.  Returns the vector, [__holeIndex] and [__secondChild]. *)
Fixpoint stl_adjust_heap_loop (fuel : nat) (v : ColorSteps) (first : nat)
    (holeIndex secondChild len : Z) : ColorSteps * Z * Z :=
  match fuel with
  | O => (v, holeIndex, secondChild)
  | S fuel' =>
      if (secondChild <? Z.quot (len - 1) 2)%Z then
        let secondChild := (2 * (secondChild + 1))%Z in
        let secondChild :=
          if ColorStep_lt (stl_get v first secondChild)
               (stl_get v first (secondChild - 1))
          then (secondChild - 1)%Z else secondChild in
        stl_adjust_heap_loop fuel'
          (stl_set v first holeIndex (stl_get v first secondChild))
          first secondChild secondChild len
      else (v, holeIndex, secondChild)
  end.

Definition stl_adjust_heap (v : ColorSteps) (first : nat)
    (holeIndex len : Z) (value : ColorStep) : ColorSteps :=
  let topIndex := holeIndex in
  let '(v, holeIndex, secondChild) :=
    stl_adjust_heap_loop (length v) v first holeIndex holeIndex len in
  let '(v, holeIndex) :=
    if (Z.land len 1 =? 0)%Z && (secondChild =? Z.quot (len - 2) 2)%Z then
      let secondChild := (2 * (secondChild + 1))%Z in
      (stl_set v first holeIndex (stl_get v first (secondChild - 1)),
       (secondChild - 1)%Z)
    else (v, holeIndex) in
  stl_push_heap (length v) v first holeIndex topIndex value.

Definition stl_pop_heap (v : ColorSteps) (first last result : nat)
    : ColorSteps :=
  let value := at_ v result in
  let v := <[result := at_ v first]> v in
  stl_adjust_heap v first 0 (Z.of_nat (last - first)) value.

Definition stl_make_heap (v : ColorSteps) (first last : nat) : ColorSteps :=
  if last - first <? 2 then v
  else
    let len := last - first in
    foldl (fun v parent =>
             stl_adjust_heap v first (Z.of_nat parent) (Z.of_nat len)
               (at_ v (first + parent)))
      v (rev (seq 0 (S ((len - 2) / 2)))).

Definition stl_heap_select (v : ColorSteps) (first middle last : nat)
    : ColorSteps :=
  foldl (fun v i =>
           if stl_comp v i first then stl_pop_heap v first middle i else v)
    (stl_make_heap v first middle) (seq middle (last - middle)).

(** [while (__last - __first > 1) { --__last; __pop_heap(...); }] *)
Definition stl_sort_heap (v : ColorSteps) (first last : nat) : ColorSteps :=
  foldl (fun v last => stl_pop_heap v first last last)
    v (rev (seq (S first) (last - S first))).

Definition stl_partial_sort (v : ColorSteps) (first middle last : nat)
    : ColorSteps :=
  stl_sort_heap (stl_heap_select v first middle last) first middle.

(** [__introsort_loop]: every round of its loop uses up one unit of
    [__depth_limit], then sorts the upper part by a call of its own and
    goes on with the lower part. *)
Fixpoint stl_introsort_loop (depth_limit : nat) (v : ColorSteps)
    (first last : nat) : ColorSteps :=
  if S_threshold <? last - first then
    match depth_limit with
    | O => stl_partial_sort v first last last
    | S depth_limit' =>
        let '(v, cut) := stl_unguarded_partition_pivot v first last in
        let v := stl_introsort_loop depth_limit' v cut last in
        stl_introsort_loop depth_limit' v first cut
    end
  else v.

(** [std::__sort(begin, end)] on the whole of [v]; [__lg] is the binary
    logarithm rounded down. *)
Definition stl_sort (v : ColorSteps) : ColorSteps :=
  match v with
  | [] => v
  | _ :: _ =>
      stl_final_insertion_sort
        (stl_introsort_loop (Nat.log2 (length v) * 2) v 0 (length v))
        0 (length v)
  end.


(** * Properties of the constructor

    The assumptions the properties draw on, each named where it is used. *)

Hypothesis sort_sorts : std_sort_sorts.
Hypothesis sort_permutes : std_sort_permutes.
Hypothesis lt_irrefl : lt_irreflexive.
Hypothesis lt_trans : lt_transitive.
Hypothesis lt_negtrans : lt_negatively_transitive.
Hypothesis eq_refl_d : eq_reflexive.
Hypothesis equal_level : equal_covers_level.
Hypothesis equal_sym : equal_symmetric.
Hypothesis equal_resp : equal_respects_level.
Hypothesis equal_conv : equal_convex.
Hypothesis zero_one : zero_below_one.

Hypothesis eq_sym_d : eq_symmetric.
Hypothesis eq_trans_d : eq_transitive.

(** *** The loop invariant *)

Lemma at_middle (p q : ColorSteps) (x : ColorStep) :
  at_ (p ++ x :: q) (length p) = x.
Proof. unfold at_. apply nth_middle. Qed.

Lemma insert_middle (p q : ColorSteps) (x y : ColorStep) :
  <[length p := y]> (p ++ x :: q) = p ++ y :: q.
Proof.
  replace (length p) with (length p + 0) by lia.
  by rewrite insert_app_r.
Qed.

Lemma run_loop_spec rStartColor (rest : ColorSteps) :
  forall (pre : ColorSteps) (lastk : ColorStep) (mid : ColorSteps)
         (b : bool) (fuel : nat),
    length rest <= fuel ->
    exists mid',
      run_loop rStartColor fuel
        (MkBand (pre ++ lastk :: mid ++ rest)
                (length pre) (length pre + 1 + length mid) b)
      = MkBand
          (pre ++ lastk :: survivors (getOffset lastk) rest ++ mid')
          (length pre + length (survivors (getOffset lastk) rest))
          (length (pre ++ lastk :: mid ++ rest))
          (b && all_color rStartColor (survivors (getOffset lastk) rest))
      /\ length (survivors (getOffset lastk) rest ++ mid')
         = length (mid ++ rest).
Proof.
  induction rest as [|s rest IH]; intros pre lastk mid b fuel Hfuel.
  - exists mid. simpl. rewrite !app_nil_r, Nat.add_0_r, andb_true_r.
    split; [|done].
    assert (Hlen : length (pre ++ lastk :: mid) = length pre + 1 + length mid)
      by (rewrite length_app; simpl; lia).
    rewrite Hlen.
    destruct fuel as [|fuel]; simpl; [done|].
    rewrite Hlen, Nat.ltb_irrefl. done.
  - destruct fuel as [|fuel]; [simpl in Hfuel; lia|].
    simpl in Hfuel.
    assert (Hnext : at_ (pre ++ lastk :: mid ++ s :: rest)
                        (length pre + 1 + length mid) = s).
    { replace (pre ++ lastk :: mid ++ s :: rest)
        with ((pre ++ lastk :: mid) ++ s :: rest)
        by (by rewrite <- app_assoc).
      replace (length pre + 1 + length mid) with (length (pre ++ lastk :: mid))
        by (rewrite length_app; simpl; lia).
      apply at_middle. }
    assert (Hcurr : at_ (pre ++ lastk :: mid ++ s :: rest) (length pre) = lastk)
      by apply at_middle.
    assert (Hlt : (length pre + 1 + length mid
                   <? length (pre ++ lastk :: mid ++ s :: rest)) = true).
    { apply Nat.ltb_lt. rewrite length_app. simpl. rewrite length_app. simpl. lia. }
    assert (Hskip :
      exists mid',
        run_loop rStartColor fuel
          (continue (MkBand (pre ++ lastk :: mid ++ s :: rest)
                            (length pre) (length pre + 1 + length mid) b))
        = MkBand
            (pre ++ lastk :: survivors (getOffset lastk) rest ++ mid')
            (length pre + length (survivors (getOffset lastk) rest))
            (length (pre ++ lastk :: mid ++ s :: rest))
            (b && all_color rStartColor (survivors (getOffset lastk) rest))
        /\ length (survivors (getOffset lastk) rest ++ mid')
           = length (mid ++ s :: rest)).
    { destruct (IH pre lastk (mid ++ [s]) b fuel ltac:(lia)) as (mid' & Hrun & Hl).
      exists mid'. unfold continue. simpl.
      rewrite <- app_assoc in Hrun. simpl in Hrun.
      rewrite length_app in Hrun. simpl in Hrun.
      replace (S (length pre + 1 + length mid))
        with (length pre + 1 + (length mid + 1)) by lia.
      rewrite Hrun. split; [done|].
      rewrite Hl, <- app_assoc. done. }
    cbn [run_loop]. cbn [vec next]. rewrite Hlt.
    unfold loop_body. cbn [vec next curr bAllTheSameColor].
    rewrite Hnext, Hcurr. cbn [survivors].
    destruct (fTools.lessOrEqual (getOffset s) d_zero); [exact Hskip|].
    destruct (fTools.moreOrEqual (getOffset s) d_one); [exact Hskip|].
    destruct (fTools.equal (getOffset s) (getOffset lastk)); [exact Hskip|].
    clear Hskip.
    destruct mid as [|m mid].
    + destruct (IH (pre ++ [lastk]) s []
                  (b && BColor_eq (getColor s) rStartColor) fuel ltac:(lia))
        as (mid' & Hrun & Hl).
      exists mid'. simpl length. simpl app.
      rewrite decide_False by lia.
      replace (S (length pre)) with (length (pre ++ [lastk]))
        by (rewrite length_app; simpl; lia).
      replace (pre ++ lastk :: s :: rest) with ((pre ++ [lastk]) ++ s :: rest)
        by (by rewrite <- app_assoc).
      rewrite at_middle.
      replace (S (length pre + 1 + 0)) with (length (pre ++ [lastk]) + 1 + 0)
        by (rewrite length_app; simpl; lia).
      simpl in Hrun. simpl. rewrite Hrun. split.
      * f_equal.
        -- by rewrite <- !app_assoc.
        -- rewrite !length_app. simpl. lia.
        -- by rewrite andb_assoc.
      * simpl in Hl. lia.
    + destruct (IH (pre ++ [lastk]) s (mid ++ [s])
                  (b && BColor_eq (getColor s) rStartColor) fuel ltac:(lia))
        as (mid' & Hrun & Hl).
      exists mid'.
      rewrite decide_True by (simpl; lia).
      replace (pre ++ lastk :: (m :: mid) ++ s :: rest)
        with ((pre ++ [lastk]) ++ m :: mid ++ s :: rest)
        by (by rewrite <- app_assoc).
      replace (S (length pre)) with (length (pre ++ [lastk]))
        by (rewrite length_app; simpl; lia).
      rewrite insert_middle, at_middle.
      replace (S (length pre + 1 + length (m :: mid)))
        with (length (pre ++ [lastk]) + 1 + length (mid ++ [s]))
        by (rewrite !length_app; simpl; lia).
      rewrite <- (app_assoc mid [s] rest) in Hrun. simpl in Hrun.
      simpl. rewrite Hrun. split.
      * f_equal.
        -- by rewrite <- !app_assoc.
        -- rewrite !length_app. simpl. lia.
        -- rewrite !length_app. simpl. rewrite !length_app. simpl. lia.
        -- by rewrite andb_assoc.
      * rewrite !length_app in *. simpl in *. lia.
Qed.

Lemma resize_prefix (p q : ColorSteps) :
  resize (length p) (p ++ q) = p.
Proof.
  unfold resize. rewrite take_app_length, length_app.
  replace (length p - (length p + length q)) with 0 by lia.
  simpl. by rewrite app_nil_r.
Qed.

(** The constructor computes [canonical]: the reads and writes of the loop
    stay inside the vector, the loop ends with [next] at the size of the
    vector, and the kept prefix is the list of survivors. *)
Theorem build_steps_canonical rStartColor rEndColor pColorSteps :
  build_steps rStartColor rEndColor pColorSteps
  = canonical rStartColor rEndColor pColorSteps.
Proof.
  unfold build_steps, canonical, without_steps.
  destruct pColorSteps as [[|r raw]|];
    [by destruct (BColor_ne _ _)| |by destruct (BColor_ne _ _)].
  set (first := MkColorStep d_zero rStartColor).
  set (rest := std_sort (r :: raw)).
  cbn [app take drop length].
  change (take 0 (r :: raw)) with (@nil ColorStep).
  change (drop 0 (r :: raw)) with (r :: raw). cbn [app]. fold rest.
  destruct (run_loop_spec rStartColor rest [] first [] (BColor_eq rStartColor rEndColor)
              (S (length rest)) ltac:(lia)) as (mid' & Hrun & Hl).
  cbn [app length Nat.add] in Hrun. rewrite Hrun.
  cbn [vec curr bAllTheSameColor].
  unfold flat, kept. fold rest. cbn [getOffset first] in *.
  set (k := survivors d_zero rest) in *.
  destruct (BColor_eq rStartColor rEndColor && all_color rStartColor k) eqn:Hflat.
  - apply (resize_prefix [first]).
  - replace (1 <? S (length k)) with (0 <? length k)
      by (destruct (length k); done).
    assert (Hv3 : (if decide (S (length k) <> length (first :: k ++ mid'))
                   then resize (S (length k)) (first :: k ++ mid')
                   else first :: k ++ mid') = first :: k).
    { case_decide as Hd.
      - apply (resize_prefix (first :: k) mid').
      - simpl in Hd. rewrite length_app in Hd.
        destruct mid'; [by rewrite app_nil_r | simpl in Hd; lia]. }
    rewrite Hv3. destruct (_ || _); [done | by rewrite app_nil_r].
Qed.


(** *** Shape of the result *)

Lemma survivors_inside (l : ColorSteps) :
  forall last, Forall inside (survivors last l).
Proof.
  induction l as [|s l IH]; intros last; simpl; [constructor|].
  destruct (fTools.lessOrEqual (getOffset s) d_zero) eqn:H0; [apply IH|].
  destruct (fTools.moreOrEqual (getOffset s) d_one) eqn:H1; [apply IH|].
  destruct (fTools.equal (getOffset s) last); [apply IH|].
  constructor; [by split | apply IH].
Qed.

Lemma survivors_sublist (l : ColorSteps) :
  forall last, survivors last l `sublist_of` l.
Proof.
  induction l as [|s l IH]; intros last; simpl; [constructor|].
  destruct (fTools.lessOrEqual (getOffset s) d_zero);
    [by apply sublist_cons|].
  destruct (fTools.moreOrEqual (getOffset s) d_one);
    [by apply sublist_cons|].
  destruct (fTools.equal (getOffset s) last);
    [by apply sublist_cons|].
  by apply sublist_skip.
Qed.

Lemma all_color_Forall (c : BColor) (l : ColorSteps) :
  all_color c l = true <-> Forall (fun s => BColor_eq (getColor s) c = true) l.
Proof.
  unfold all_color. rewrite forallb_forall, Forall_forall.
  split; intros Hl s Hs; apply Hl; by apply list_elem_of_In.
Qed.

Lemma flat_without_steps rStartColor rEndColor pColorSteps :
  kept pColorSteps = [] ->
  flat rStartColor rEndColor pColorSteps = BColor_eq rStartColor rEndColor.
Proof. unfold flat. intros ->. simpl. apply andb_true_r. Qed.

(** The result is the start step alone, or the start step, the survivors
    and the end step: in the branch that is not flat the condition of the
    source for appending the end step always holds. *)
Lemma canonical_flat_or_full rStartColor rEndColor pColorSteps :
  canonical rStartColor rEndColor pColorSteps
  = if flat rStartColor rEndColor pColorSteps
    then [MkColorStep d_zero rStartColor]
    else MkColorStep d_zero rStartColor :: kept pColorSteps
           ++ [MkColorStep d_one rEndColor].
Proof.
  unfold canonical.
  destruct pColorSteps as [[|r raw]|].
  - rewrite flat_without_steps by done. unfold BColor_ne.
    by destruct (BColor_eq _ _).
  - destruct (flat _ _ _) eqn:Hflat; [done|].
    destruct (_ || _) eqn:Hc; [done|]. exfalso.
    apply orb_false_iff in Hc as [Hk Hne]. unfold flat, BColor_ne, kept in *.
    destruct (BColor_eq rStartColor rEndColor); [|done].
    destruct (survivors _ _); simpl in *; [congruence|].
    apply Nat.ltb_ge in Hk. lia.
  - rewrite flat_without_steps by done. unfold BColor_ne.
    by destruct (BColor_eq _ _).
Qed.

Lemma build_steps_flat_or_full rStartColor rEndColor pColorSteps :
  build_steps rStartColor rEndColor pColorSteps
  = if flat rStartColor rEndColor pColorSteps
    then [MkColorStep d_zero rStartColor]
    else MkColorStep d_zero rStartColor :: kept pColorSteps
           ++ [MkColorStep d_one rEndColor].
Proof. rewrite build_steps_canonical. apply canonical_flat_or_full. Qed.

Lemma removelast_snoc (l : ColorSteps) (x : ColorStep) :
  removelast (l ++ [x]) = l.
Proof. apply removelast_last. Qed.

Lemma intermediate_build_steps rStartColor rEndColor pColorSteps :
  intermediate (build_steps rStartColor rEndColor pColorSteps)
  = if flat rStartColor rEndColor pColorSteps then [] else kept pColorSteps.
Proof.
  rewrite build_steps_flat_or_full. unfold intermediate.
  destruct (flat _ _ _); [done|]. simpl. apply removelast_snoc.
Qed.

Lemma kept_inside pColorSteps : Forall inside (kept pColorSteps).
Proof.
  unfold kept. destruct pColorSteps as [[|r raw]|]; try constructor.
  apply survivors_inside.
Qed.

(** The start step, steps in between that lie inside the range, and
    possibly the end step. *)
Lemma build_steps_decompose rStartColor rEndColor pColorSteps :
  exists mid tail_end,
    build_steps rStartColor rEndColor pColorSteps
    = MkColorStep d_zero rStartColor :: mid ++ tail_end
    /\ (tail_end = [] \/ tail_end = [MkColorStep d_one rEndColor])
    /\ mid = intermediate (build_steps rStartColor rEndColor pColorSteps)
    /\ (mid = [] \/ mid = kept pColorSteps).
Proof.
  rewrite intermediate_build_steps, build_steps_flat_or_full.
  destruct (flat _ _ _).
  - exists [], []. auto.
  - exists (kept pColorSteps), [MkColorStep d_one rEndColor]. auto.
Qed.

(** *** C2 *)

(** C2: for every start colour, end colour and raw steps (absent, empty or
    not) the result is not empty and begins with the step at offset [0.0]
    that holds the start colour; no step kept behind it has an offset
    [<= 0.0] within the tolerance, so no raw step takes that place. *)
Theorem C2_first_stop_is_start rStartColor rEndColor pColorSteps :
  exists rest,
    build_steps rStartColor rEndColor pColorSteps
    = MkColorStep d_zero rStartColor :: rest
    /\ Forall (fun s => fTools.lessOrEqual (getOffset s) d_zero = false)
         (intermediate (build_steps rStartColor rEndColor pColorSteps)).
Proof.
  destruct (build_steps_decompose rStartColor rEndColor pColorSteps)
    as (mid & tail_end & Hb & _ & Hmid & Hk).
  exists (mid ++ tail_end). split; [done|].
  rewrite <- Hmid. destruct Hk as [-> | ->]; [constructor|].
  eapply Forall_impl; [apply kept_inside|]. by intros s [? _].
Qed.

(** *** C3 *)

(** C3: when the result has more than one step, its last step is the step
    at offset [1.0] that holds the end colour, appended by the constructor;
    the steps between the first and it have no offset [>= 1.0] within the
    tolerance, so none of them is a raw step claiming offset 1. *)
Theorem C3_last_stop_is_end rStartColor rEndColor pColorSteps :
  1 < length (build_steps rStartColor rEndColor pColorSteps) ->
  exists mid,
    build_steps rStartColor rEndColor pColorSteps
    = MkColorStep d_zero rStartColor :: mid ++ [MkColorStep d_one rEndColor]
    /\ mid = kept pColorSteps
    /\ Forall (fun s => fTools.moreOrEqual (getOffset s) d_one = false) mid.
Proof.
  rewrite build_steps_flat_or_full.
  destruct (flat _ _ _); [simpl; lia|]. intros _.
  exists (kept pColorSteps). repeat split.
  eapply Forall_impl; [apply kept_inside|]. by intros s [_ ?].
Qed.

(** *** C4 *)

Lemma one_color_flat rStartColor rEndColor pColorSteps :
  one_color (MkColorStep d_zero rStartColor :: kept pColorSteps
               ++ [MkColorStep d_one rEndColor]) ->
  flat rStartColor rEndColor pColorSteps = true.
Proof.
  intros Hone. unfold flat. apply andb_true_iff. split.
  - apply (Hone (MkColorStep d_zero rStartColor) (MkColorStep d_one rEndColor)).
    + by left.
    + right. apply in_or_app. right. by left.
  - apply all_color_Forall, Forall_forall. intros s Hs.
    apply (Hone s (MkColorStep d_zero rStartColor)).
    + right. apply in_or_app. left. by apply list_elem_of_In.
    + by left.
Qed.

(** C4: if the start colour equals the end colour and every raw step that
    survives the filtering has the start colour, the result is the single
    step (0.0, start colour); and a result all of whose steps have one
    colour is that single step, so it never has more than one step. *)
Theorem C4_flat_collapse rStartColor rEndColor pColorSteps :
  (BColor_eq rStartColor rEndColor = true ->
   Forall (fun s => BColor_eq (getColor s) rStartColor = true)
     (kept pColorSteps) ->
   build_steps rStartColor rEndColor pColorSteps
   = [MkColorStep d_zero rStartColor])
  /\ (one_color (build_steps rStartColor rEndColor pColorSteps) ->
      build_steps rStartColor rEndColor pColorSteps
      = [MkColorStep d_zero rStartColor]
      /\ length (build_steps rStartColor rEndColor pColorSteps) <= 1).
Proof.
  rewrite build_steps_flat_or_full. split.
  - intros Heq Hall. unfold flat.
    rewrite Heq. apply all_color_Forall in Hall. by rewrite Hall.
  - destruct (flat _ _ _) eqn:Hflat; [simpl; auto|].
    intros Hone. apply one_color_flat in Hone. congruence.
Qed.

(** *** C6 *)

(** C6: the result is the start step, steps in between, and possibly the
    end step; every step in between lies inside the range, that is, its
    offset is neither [<= 0.0] nor [>= 1.0] within the tolerance.  A raw
    step outside the range is therefore nowhere in the result. *)
Theorem C6_out_of_range_discarded rStartColor rEndColor pColorSteps :
  exists mid tail_end,
    build_steps rStartColor rEndColor pColorSteps
    = MkColorStep d_zero rStartColor :: mid ++ tail_end
    /\ (tail_end = [] \/ tail_end = [MkColorStep d_one rEndColor])
    /\ Forall inside mid.
Proof.
  destruct (build_steps_decompose rStartColor rEndColor pColorSteps)
    as (mid & tail_end & Hb & Ht & _ & Hk).
  exists mid, tail_end. repeat split; [done..|].
  destruct Hk as [-> | ->]; [constructor | apply kept_inside].
Qed.

(** *** C5 *)

Lemma sort_singleton (x : ColorStep) : std_sort [x] = [x].
Proof using sort_permutes. apply Permutation_singleton_r, sort_permutes. Qed.

(** C5: without raw steps (null or empty) the end step is appended exactly
    when the end colour differs from the start colour; with raw steps and no
    flat collapse it is appended exactly when a step survived or the end
    colour differs from the start colour.  A single raw step inside the
    range with another colour, between equal start and end colours, gives
    the start step, that step and the end step. *)
Theorem C5_end_stop_appended rStartColor rEndColor :
  (forall pColorSteps,
     pColorSteps = None \/ pColorSteps = Some [] ->
     build_steps rStartColor rEndColor pColorSteps
     = MkColorStep d_zero rStartColor
         :: (if BColor_ne rStartColor rEndColor
             then [MkColorStep d_one rEndColor] else []))
  /\ (forall raw,
        raw <> [] ->
        flat rStartColor rEndColor (Some raw) = false ->
        build_steps rStartColor rEndColor (Some raw)
        = MkColorStep d_zero rStartColor :: kept (Some raw)
            ++ (if (0 <? length (kept (Some raw)))
                   || BColor_ne rStartColor rEndColor
                then [MkColorStep d_one rEndColor] else []))
  /\ (forall fOffset rColor,
        fTools.lessOrEqual fOffset d_zero = false ->
        fTools.moreOrEqual fOffset d_one = false ->
        BColor_eq rColor rStartColor = false ->
        build_steps rStartColor rStartColor (Some [MkColorStep fOffset rColor])
        = [MkColorStep d_zero rStartColor; MkColorStep fOffset rColor;
           MkColorStep d_one rStartColor]).
Proof using sort_permutes.
  repeat split.
  - intros p [-> | ->]; rewrite build_steps_canonical; done.
  - intros [|r raw] Hne Hflat; [done|].
    rewrite build_steps_canonical. unfold canonical. by rewrite Hflat.
  - intros fOffset rColor H0 H1 Hc.
    rewrite build_steps_flat_or_full. unfold flat, kept.
    rewrite sort_singleton. simpl. rewrite H0, H1.
    apply orb_false_iff in H0 as [_ H0]. unfold fTools.equal in *.
    rewrite H0. simpl. rewrite Hc, andb_false_r. done.
Qed.

(** *** C10 *)

Lemma kept_from_raw pColorSteps :
  kept pColorSteps ⊆+ default [] pColorSteps.
Proof using sort_permutes.
  unfold kept. destruct pColorSteps as [[|r raw]|]; simpl; [done| |done].
  etrans; [apply sublist_submseteq, survivors_sublist|].
  apply Permutation_submseteq, sort_permutes.
Qed.

(** C10: the steps of the result other than the start step and the end
    step are raw steps, each taken with its offset and colour as supplied
    and no more often than it was supplied; the constructor drops and
    reorders raw steps and makes up none. *)
Theorem C10_intermediate_from_raw rStartColor rEndColor pColorSteps :
  exists mid tail_end,
    build_steps rStartColor rEndColor pColorSteps
    = MkColorStep d_zero rStartColor :: mid ++ tail_end
    /\ (tail_end = [] \/ tail_end = [MkColorStep d_one rEndColor])
    /\ mid ⊆+ default [] pColorSteps
    /\ Forall (fun s => In s (default [] pColorSteps)) mid.
Proof using sort_permutes.
  destruct (build_steps_decompose rStartColor rEndColor pColorSteps)
    as (mid & tail_end & Hb & Ht & _ & Hk).
  exists mid, tail_end.
  assert (Hsub : mid ⊆+ default [] pColorSteps).
  { destruct Hk as [-> | ->]; [apply submseteq_nil_l | apply kept_from_raw]. }
  repeat split; [done..|].
  apply Forall_forall. intros s Hs. apply list_elem_of_In.
  by eapply elem_of_submseteq.
Qed.

(** *** C1 *)

(** Not less and not equal within the tolerance is greater. *)
Lemma above_of_not_equal (x y : double) :
  d_lt x y = false -> fTools.equal x y = false -> d_lt y x = true.
Proof using equal_level.
  intros Hxy Hne. destruct (d_lt y x) eqn:Hyx; [done|].
  unfold fTools.equal in Hne. by rewrite (equal_level _ _ Hxy Hyx) in Hne.
Qed.

Lemma not_equal_sym (x y : double) :
  fTools.equal x y = false -> fTools.equal y x = false.
Proof using equal_sym. unfold fTools.equal. by rewrite equal_sym. Qed.

Lemma apart_between_trans : Transitive apart_between.
Proof using lt_trans equal_sym equal_conv.
  intros a b c ((Hab & _ & _) & Ha & _) ((Hbc & _ & Hcb) & _ & Hc).
  assert (Hca : fTools.equal (getOffset c) (getOffset a) = false).
  { destruct (fTools.equal (getOffset c) (getOffset a)) eqn:E; [|done].
    unfold fTools.equal in *.
    rewrite (equal_conv _ _ _ (proj1 Ha) Hab Hbc (proj2 Hc) E) in Hcb.
    done. }
  split; [|done]. repeat split; [|by apply not_equal_sym|done].
  by eapply lt_trans.
Qed.

Lemma survivors_Sorted (l : ColorSteps) :
  forall p,
    StronglySorted not_greater l ->
    Forall (fun s => fTools.lessOrEqual (getOffset s) d_zero = false ->
                     d_lt (getOffset s) (getOffset p) = false) l ->
    Sorted strictly_apart (p :: survivors (getOffset p) l).
Proof using equal_level equal_sym.
  induction l as [|s l IH]; intros p Hsorted Hp; simpl.
  - repeat constructor.
  - apply StronglySorted_inv in Hsorted as [Hl Hs].
    apply Forall_cons in Hp as [Hps Hp].
    destruct (fTools.lessOrEqual (getOffset s) d_zero) eqn:H0; [by apply IH|].
    destruct (fTools.moreOrEqual (getOffset s) d_one) eqn:H1; [by apply IH|].
    destruct (fTools.equal (getOffset s) (getOffset p)) eqn:He; [by apply IH|].
    constructor.
    + apply IH; [done|].
      eapply Forall_impl; [exact Hs|]. intros x Hx _. exact Hx.
    + constructor. repeat split.
      * apply above_of_not_equal; auto.
      * by apply not_equal_sym.
      * done.
Qed.

Lemma inside_below_one (s : ColorStep) rEndColor :
  inside s -> strictly_apart s (MkColorStep d_one rEndColor).
Proof using equal_level equal_sym.
  intros [_ H1]. apply orb_false_iff in H1 as [Hlt Hne].
  repeat split; simpl.
  - apply above_of_not_equal; [done | by apply not_equal_sym].
  - done.
  - by apply not_equal_sym.
Qed.

Lemma inside_above_zero (s : ColorStep) rStartColor :
  inside s -> strictly_apart (MkColorStep d_zero rStartColor) s.
Proof using equal_level equal_sym.
  intros [H0 _]. apply orb_false_iff in H0 as [Hlt Hne].
  repeat split; simpl.
  - by apply above_of_not_equal.
  - by apply not_equal_sym.
  - done.
Qed.

Lemma inside_between (s : ColorStep) : inside s -> between s.
Proof using equal_level equal_sym.
  intros Hs. split.
  - by destruct (inside_above_zero s BColor_default Hs) as [? _].
  - by destruct (inside_below_one s BColor_default Hs) as [? _].
Qed.

Lemma Sorted_apart_between (l : ColorSteps) :
  Sorted strictly_apart l -> Forall between l -> Sorted apart_between l.
Proof.
  induction 1 as [|a l Hl IH Hhd]; intros Hb; [constructor|].
  apply Forall_cons in Hb as [Ha Hb].
  constructor; [by apply IH|].
  destruct Hhd as [|b l' Hab]; constructor.
  apply Forall_cons in Hb as [Hb _]. unfold apart_between. auto.
Qed.

Lemma StronglySorted_apart (l : ColorSteps) :
  StronglySorted apart_between l -> StronglySorted strictly_apart l.
Proof.
  induction 1 as [|a l Hl IH Ha]; constructor; [done|].
  eapply Forall_impl; [exact Ha|]. by intros b [? _].
Qed.

(** The survivors alone are strictly ascending and pairwise apart. *)
Lemma kept_StronglySorted pColorSteps :
  StronglySorted strictly_apart (kept pColorSteps).
Proof using sort_sorts lt_trans equal_level equal_sym equal_conv.
  pose proof apart_between_trans as Htrans.
  apply StronglySorted_apart, Sorted_StronglySorted; [done|].
  apply Sorted_apart_between.
  - unfold kept. destruct pColorSteps as [[|r raw]|]; try constructor.
    eapply (Sorted_inv (a := MkColorStep d_zero BColor_default)).
    apply (survivors_Sorted _ (MkColorStep d_zero BColor_default));
      [apply sort_sorts|].
    apply Forall_forall. intros s _ Hs.
    by apply orb_false_iff in Hs as [? _].
  - eapply Forall_impl; [apply kept_inside|]. apply inside_between.
Qed.

(** C1: the steps of the result are in strictly ascending order of offset
    and no two of them, adjacent or not, have offsets equal within the
    tolerance; this includes the start step at 0.0 and the appended end
    step at 1.0. *)
Theorem C1_strictly_ascending rStartColor rEndColor pColorSteps :
  StronglySorted strictly_apart
    (build_steps rStartColor rEndColor pColorSteps).
Proof using sort_sorts lt_trans equal_level equal_sym equal_conv zero_one.
  rewrite build_steps_flat_or_full.
  destruct (flat _ _ _); [repeat constructor|].
  pose proof (kept_inside pColorSteps) as Hin.
  constructor.
  - apply StronglySorted_app_2;
      [|apply kept_StronglySorted|repeat constructor].
    intros x y Hx Hy. apply list_elem_of_singleton in Hy as ->.
    apply inside_below_one. rewrite Forall_forall in Hin. by apply Hin.
  - apply Forall_app. split.
    + eapply Forall_impl; [exact Hin|].
      intros s Hs. by apply inside_above_zero.
    + constructor; [|constructor].
      destruct zero_one as [Hlt Hne]. repeat split; simpl; [done| |done].
      by apply not_equal_sym.
Qed.

(** *** C7 *)

Lemma same_offset_iff (a b : double) :
  same_offset a b = true <-> d_lt a b = false /\ d_lt b a = false.
Proof.
  unfold same_offset. rewrite andb_true_iff, !negb_true_iff. done.
Qed.

Lemma same_offset_refl (a : double) : same_offset a a = true.
Proof using lt_irrefl. apply same_offset_iff. by rewrite lt_irrefl. Qed.

(** [<] does not tell apart offsets of which neither is less than the
    other. *)
Lemma lt_respects_level_l (a b c : double) :
  same_offset a b = true -> d_lt a c = d_lt b c.
Proof using lt_negtrans.
  intros [Hab Hba]%same_offset_iff.
  destruct (d_lt a c) eqn:Hac, (d_lt b c) eqn:Hbc; try done.
  - destruct (lt_negtrans _ b _ Hac); congruence.
  - destruct (lt_negtrans _ a _ Hbc); congruence.
Qed.

Lemma lt_respects_level_r (a b c : double) :
  same_offset a b = true -> d_lt c a = d_lt c b.
Proof using lt_negtrans.
  intros [Hab Hba]%same_offset_iff.
  destruct (d_lt c a) eqn:Hca, (d_lt c b) eqn:Hcb; try done.
  - destruct (lt_negtrans _ b _ Hca); congruence.
  - destruct (lt_negtrans _ a _ Hcb); congruence.
Qed.

Lemma inside_respects_level (s t : ColorStep) :
  same_offset (getOffset t) (getOffset s) = true ->
  fTools.lessOrEqual (getOffset t) d_zero = fTools.lessOrEqual (getOffset s) d_zero
  /\ fTools.moreOrEqual (getOffset t) d_one = fTools.moreOrEqual (getOffset s) d_one.
Proof using lt_negtrans equal_resp.
  intros Hst. pose proof Hst as [Hts Hst']%same_offset_iff.
  unfold fTools.lessOrEqual, fTools.moreOrEqual, fTools.equal.
  rewrite (lt_respects_level_l _ _ d_zero Hst).
  rewrite (lt_respects_level_r _ _ d_one Hst).
  by rewrite (equal_resp _ _ d_zero Hts Hst'), (equal_resp _ _ d_one Hts Hst').
Qed.

(** Every survivor lies strictly above the offset kept last. *)
Lemma survivors_above (l : ColorSteps) :
  forall last,
    StronglySorted not_greater l ->
    Forall (fun x => d_lt (getOffset x) last = false) l ->
    Forall (fun s => d_lt last (getOffset s) = true) (survivors last l).
Proof using lt_trans equal_level.
  induction l as [|u l IH]; intros last Hsorted Hlast; simpl; [constructor|].
  apply StronglySorted_inv in Hsorted as [Hl Hu].
  apply Forall_cons in Hlast as [Hu_last Hlast].
  destruct (fTools.lessOrEqual (getOffset u) d_zero); [by apply IH|].
  destruct (fTools.moreOrEqual (getOffset u) d_one); [by apply IH|].
  destruct (fTools.equal (getOffset u) last) eqn:He; [by apply IH|].
  assert (Hlt : d_lt last (getOffset u) = true)
    by (by apply above_of_not_equal).
  constructor; [done|].
  eapply Forall_impl; [apply (IH (getOffset u)); done|].
  intros s Hs. simpl in Hs. by eapply lt_trans.
Qed.

(** After a step that was dropped for being equal within the tolerance to
    the offset kept last, no step with its offset is kept. *)
Lemma survivors_skip_level (l : ColorSteps) :
  forall last t,
    fTools.equal (getOffset t) last = true ->
    Forall (not_greater t) l ->
    StronglySorted not_greater l ->
    Forall (fun s => same_offset (getOffset t) (getOffset s) = false)
      (survivors last l).
Proof using lt_trans lt_negtrans equal_level equal_resp.
  induction l as [|u l IH]; intros last t Ht Htl Hsorted; simpl; [constructor|].
  apply StronglySorted_inv in Hsorted as [Hl Hu].
  apply Forall_cons in Htl as [Htu Htl].
  destruct (fTools.lessOrEqual (getOffset u) d_zero); [by apply IH|].
  destruct (fTools.moreOrEqual (getOffset u) d_one); [by apply IH|].
  destruct (fTools.equal (getOffset u) last) eqn:He; [by apply IH|].
  constructor.
  - destruct (same_offset (getOffset t) (getOffset u)) eqn:Hs; [|done].
    apply same_offset_iff in Hs as [Htu' Hut].
    unfold fTools.equal in *.
    rewrite <- (equal_resp _ _ last Htu' Hut), Ht in He. done.
  - eapply Forall_impl; [apply (survivors_above l (getOffset u)); done|].
    intros s Hus. simpl in Hus.
    destruct (same_offset (getOffset t) (getOffset s)) eqn:Hs; [|done].
    apply same_offset_iff in Hs as [Hts Hst].
    unfold not_greater, ColorStep_lt in Htu.
    destruct (lt_negtrans _ (getOffset t) _ Hus); congruence.
Qed.

(** A survivor is the first step with its offset in the sorted range. *)
Lemma survivors_first_at (l : ColorSteps) :
  forall last s,
    StronglySorted not_greater l ->
    In s (survivors last l) ->
    first_at (getOffset s) l = Some s.
Proof using lt_irrefl lt_trans lt_negtrans equal_level equal_resp.
  induction l as [|t l IH]; intros last s Hsorted Hs; simpl in *; [done|].
  pose proof Hsorted as [Hl Ht]%StronglySorted_inv.
  assert (Hrange : inside s).
  { pose proof (survivors_inside (t :: l) last) as Hin.
    rewrite Forall_forall in Hin. apply Hin, list_elem_of_In. exact Hs. }
  destruct Hrange as [Hs0 Hs1].
  destruct (fTools.lessOrEqual (getOffset t) d_zero) eqn:H0.
  { destruct (same_offset (getOffset t) (getOffset s)) eqn:Hlevel;
      [|by eapply IH].
    apply inside_respects_level in Hlevel as [E _]. congruence. }
  destruct (fTools.moreOrEqual (getOffset t) d_one) eqn:H1.
  { destruct (same_offset (getOffset t) (getOffset s)) eqn:Hlevel;
      [|by eapply IH].
    apply inside_respects_level in Hlevel as [_ E]. congruence. }
  destruct (fTools.equal (getOffset t) last) eqn:He.
  { pose proof (survivors_skip_level l last t He Ht Hl) as Hskip.
    rewrite Forall_forall in Hskip.
    rewrite (Hskip s) by (by apply list_elem_of_In).
    by eapply IH. }
  destruct Hs as [<- | Hs].
  - by rewrite same_offset_refl.
  - pose proof (survivors_above l (getOffset t) Hl Ht) as Habove.
    rewrite Forall_forall in Habove.
    apply list_elem_of_In, Habove in Hs as Hts.
    replace (same_offset (getOffset t) (getOffset s)) with false.
    + eapply IH; [done|]. by apply list_elem_of_In.
    + symmetry. unfold same_offset. by rewrite Hts.
Qed.

Lemma first_at_head (o : double) (l : ColorSteps) :
  first_at o l = head (all_at o l).
Proof.
  induction l as [|t l IH]; simpl; [done|].
  by destruct (same_offset (getOffset t) o).
Qed.

(** C7, as the code has it: a step retained between the first and the last
    one is a raw step, and it is the first step with its offset in the
    order [std::sort] produced, so of several raw steps with equal offsets
    the filter keeps the one sorted first.  [std::sort] does not promise to
    keep raw steps with equal offsets in their order; for an input on which
    it does, the retained step is the earliest raw step with its offset. *)
Theorem C7_first_sorted_wins rStartColor rEndColor raw s :
  In s (intermediate (build_steps rStartColor rEndColor (Some raw))) ->
  In s raw
  /\ first_at (getOffset s) (std_sort raw) = Some s
  /\ (all_at (getOffset s) (std_sort raw) = all_at (getOffset s) raw ->
      first_at (getOffset s) raw = Some s).
Proof using sort_sorts sort_permutes lt_irrefl lt_trans lt_negtrans
  equal_level equal_resp.
  rewrite intermediate_build_steps. intros Hs.
  assert (Hk : In s (kept (Some raw))) by (by destruct (flat _ _ _)).
  clear Hs.
  assert (Hfirst : first_at (getOffset s) (std_sort raw) = Some s).
  { unfold kept in Hk. destruct raw as [|r raw]; [done|].
    eapply survivors_first_at; [apply sort_sorts | exact Hk]. }
  repeat split.
  - apply list_elem_of_In.
    eapply elem_of_submseteq; [|apply (kept_from_raw (Some raw))].
    by apply list_elem_of_In.
  - done.
  - intros Hstable. by rewrite first_at_head, <- Hstable, <- first_at_head.
Qed.

(** *** The insertion sorts meet the contract of [std::sort] *)

Lemma insert_by_Permutation goes_before (x : ColorStep) (l : ColorSteps) :
  insert_by goes_before x l ≡ₚ x :: l.
Proof.
  induction l as [|y l IH]; simpl; [done|].
  destruct (goes_before x y); [done|].
  rewrite IH. apply perm_swap.
Qed.

Lemma sort_by_Permutation goes_before (l : ColorSteps) :
  sort_by goes_before l ≡ₚ l.
Proof.
  induction l as [|x l IH]; simpl; [done|].
  by rewrite insert_by_Permutation, IH.
Qed.

Lemma not_greater_trans (a b c : ColorStep) :
  not_greater a b -> not_greater b c -> not_greater a c.
Proof using lt_negtrans.
  unfold not_greater, ColorStep_lt. intros Hab Hbc.
  destruct (d_lt (getOffset c) (getOffset a)) eqn:Hca; [|done].
  destruct (lt_negtrans _ (getOffset b) _ Hca); congruence.
Qed.

Lemma lt_asymmetric (x y : double) : d_lt x y = true -> d_lt y x = false.
Proof using lt_irrefl lt_trans.
  intros Hxy. destruct (d_lt y x) eqn:Hyx; [|done].
  by rewrite <- (lt_irrefl x), (lt_trans _ _ _ Hxy Hyx).
Qed.

Lemma insert_by_sorted goes_before (x : ColorStep) (l : ColorSteps) :
  (forall a b, goes_before a b = true -> not_greater a b) ->
  (forall a b, goes_before a b = false -> not_greater b a) ->
  StronglySorted not_greater l ->
  StronglySorted not_greater (insert_by goes_before x l).
Proof using lt_negtrans.
  intros Hyes Hno. induction l as [|y l IH]; intros Hsorted; simpl.
  - repeat constructor.
  - pose proof Hsorted as [Hl Hy]%StronglySorted_inv.
    destruct (goes_before x y) eqn:Hxy.
    + constructor; [done|]. constructor; [by apply Hyes|].
      eapply Forall_impl; [exact Hy|]. intros z Hz.
      eapply not_greater_trans; [|exact Hz]. by apply Hyes.
    + constructor; [by apply IH|].
      rewrite insert_by_Permutation. constructor; [by apply Hno | done].
Qed.

Lemma sort_by_sorted goes_before (l : ColorSteps) :
  (forall a b, goes_before a b = true -> not_greater a b) ->
  (forall a b, goes_before a b = false -> not_greater b a) ->
  StronglySorted not_greater (sort_by goes_before l).
Proof using lt_negtrans.
  intros Hyes Hno. induction l as [|x l IH]; simpl; [constructor|].
  by apply insert_by_sorted.
Qed.

Lemma sort_before_or_level_sorted (l : ColorSteps) :
  StronglySorted not_greater (sort_by before_or_level l).
Proof using lt_irrefl lt_trans lt_negtrans.
  apply sort_by_sorted; unfold before_or_level, not_greater; intros a b Hab.
  - by apply negb_true_iff in Hab.
  - apply negb_false_iff in Hab. by apply lt_asymmetric.
Qed.

(** [sort_by before_or_level] keeps steps with equal offsets in order. *)
Lemma insert_before_or_level_all_at (o : double) (x : ColorStep)
    (l : ColorSteps) :
  all_at o (insert_by before_or_level x l) = all_at o (x :: l).
Proof using lt_negtrans.
  induction l as [|y l IH]; [done|].
  cbn [insert_by]. destruct (before_or_level x y) eqn:Hxy; [done|].
  apply negb_false_iff in Hxy. unfold ColorStep_lt in Hxy.
  cbn [all_at] in *. rewrite IH.
  destruct (same_offset (getOffset y) o) eqn:Hy; [|done].
  destruct (same_offset (getOffset x) o) eqn:Hx; [|done].
  apply same_offset_iff in Hy as [Hyo Hoy].
  apply same_offset_iff in Hx as [Hxo Hox].
  destruct (lt_negtrans _ o _ Hxy); congruence.
Qed.

Lemma sort_before_or_level_all_at (o : double) (l : ColorSteps) :
  all_at o (sort_by before_or_level l) = all_at o l.
Proof using lt_negtrans.
  induction l as [|x l IH]; [done|].
  cbn [sort_by]. rewrite insert_before_or_level_all_at.
  cbn [all_at]. by rewrite IH.
Qed.

(** * Properties of the handle class *)

Lemma theGlobalDefault_fixed st a :
  SINGLETON st = Some a -> theGlobalDefault st = (a, st).
Proof. unfold theGlobalDefault. by intros ->. Qed.

Lemma theGlobalDefault_sets st :
  SINGLETON (snd (theGlobalDefault st)) = Some (fst (theGlobalDefault st)).
Proof. unfold theGlobalDefault. by destruct (SINGLETON st) eqn:E. Qed.

Lemma theGlobalDefault_again st :
  theGlobalDefault (snd (theGlobalDefault st))
  = (fst (theGlobalDefault st), snd (theGlobalDefault st)).
Proof. apply theGlobalDefault_fixed, theGlobalDefault_sets. Qed.

Lemma new_impl_ok st v :
  store_ok st ->
  store_ok (snd (new_impl v st)) /\ extends st (snd (new_impl v st)).
Proof.
  intros [Hfresh Hsingle]. unfold new_impl. simpl.
  assert (Hnew : objects st !! fresh st = None).
  { destruct (objects st !! fresh st) eqn:E; [|done].
    assert (fresh st < fresh st) by (apply Hfresh; by rewrite E). lia. }
  repeat split; simpl.
  - intros a Ha. destruct (decide (a = fresh st)) as [-> | Hne]; [lia|].
    rewrite lookup_insert_ne in Ha by done. apply Hfresh in Ha. lia.
  - intros a Ha. apply Hsingle in Ha.
    rewrite lookup_insert_ne; [done|]. intros <-. congruence.
  - done.
  - intros a w Ha. rewrite lookup_insert_ne; [done|]. intros <-. congruence.
Qed.

Lemma theGlobalDefault_ok st :
  store_ok st ->
  store_ok (snd (theGlobalDefault st)) /\ extends st (snd (theGlobalDefault st)).
Proof.
  intros Hok. unfold theGlobalDefault.
  destruct (SINGLETON st) eqn:E; simpl.
  - split; [done|]. by split.
  - destruct (new_impl_ok st ImpFillGradientAttribute_default Hok)
      as [[Hfresh Hsingle] [_ Hobj]].
    simpl in *. repeat split; simpl.
    + done.
    + intros a [= <-]. apply lookup_insert_eq.
    + intros a Ha. congruence.
    + done.
Qed.

Lemma extends_refl st : extends st st.
Proof. by split. Qed.

Lemma extends_trans st1 st2 st3 :
  extends st1 st2 -> extends st2 st3 -> extends st1 st3.
Proof. intros [H1 H2] [H3 H4]. split; eauto. Qed.

Lemma operator_eq_unfold this rCandidate st :
  operator_eq this rCandidate st
  = let a := fst (theGlobalDefault st) in
    let st1 := snd (theGlobalDefault st) in
    let c := same_object (mpFillGradientAttribute rCandidate) a in
    let t := same_object (mpFillGradientAttribute this) a in
    ((if negb (eqb c t) then false
      else same_object (mpFillGradientAttribute rCandidate)
             (mpFillGradientAttribute this)
           || Imp_eq (deref st1 (mpFillGradientAttribute rCandidate))
                     (deref st1 (mpFillGradientAttribute this))),
     st1).
Proof.
  pose proof (theGlobalDefault_again st) as Hagain.
  unfold operator_eq, isDefault, bind, ret, cow_wrapper_eq.
  destruct (theGlobalDefault st) as [a st1] eqn:E. simpl in *.
  rewrite Hagain. by destruct (negb _).
Qed.

Lemma exec_ok st c : store_ok st -> store_ok (exec st c) /\ extends st (exec st c).
Proof.
  intros Hok. destruct c; cbn [exec].
  - exact (new_impl_ok st _ Hok).
  - unfold FillGradientAttribute_default, bind, ret.
    pose proof (theGlobalDefault_ok st Hok) as Hg.
    destruct (theGlobalDefault st). exact Hg.
  - unfold isDefault, bind, ret.
    pose proof (theGlobalDefault_ok st Hok) as Hg.
    destruct (theGlobalDefault st). exact Hg.
  - rewrite operator_eq_unfold. exact (theGlobalDefault_ok st Hok).
Qed.

Lemma exec_all_ok cs :
  forall st, store_ok st ->
    store_ok (exec_all st cs) /\ extends st (exec_all st cs).
Proof.
  unfold exec_all.
  induction cs as [|c cs IH]; intros st Hok; simpl.
  - split; [done | apply extends_refl].
  - destruct (exec_ok st c Hok) as [Hok1 Hext1].
    destruct (IH _ Hok1) as [Hok2 Hext2].
    split; [done | by eapply extends_trans].
Qed.

Lemma empty_store_ok : store_ok empty_store.
Proof.
  split; simpl.
  - intros a [v Hv]. by rewrite lookup_empty in Hv.
  - done.
Qed.

Lemma deref_extends st st' a :
  extends st st' -> is_Some (objects st !! a) -> deref st' a = deref st a.
Proof.
  intros [_ Hobj] [v Hv]. unfold deref. by rewrite (Hobj _ _ Hv), Hv.
Qed.

Lemma isDefault_fst this st :
  fst (isDefault this st)
  = same_object (mpFillGradientAttribute this) (fst (theGlobalDefault st)).
Proof.
  unfold isDefault, bind, ret. by destruct (theGlobalDefault st).
Qed.

Lemma same_object_true (a b : address) : same_object a b = true <-> a = b.
Proof. apply Nat.eqb_eq. Qed.

Lemma ColorSteps_eq_refl (l : ColorSteps) : ColorSteps_eq l l = true.
Proof using eq_refl_d.
  induction l as [|[o [r g b]] l IH]; simpl; [done|].
  unfold ColorStep_eq, BColor_eq. simpl. by rewrite !eq_refl_d, IH.
Qed.

Lemma Imp_eq_refl (a : ImpFillGradientAttribute) : Imp_eq a a = true.
Proof using eq_refl_d.
  unfold Imp_eq.
  rewrite !eq_refl_d, ColorSteps_eq_refl, Z.eqb_refl.
  by destruct (meStyle a).
Qed.

(** An object other than the singleton stays one: the singleton, when it is
    constructed later, gets a fresh address. *)
Lemma theGlobalDefault_other st a :
  store_ok st -> other_object st a ->
  other_object (snd (theGlobalDefault st)) a
  /\ fst (theGlobalDefault st) <> a.
Proof.
  intros [Hfresh _] [Hin Hne]. unfold theGlobalDefault, other_object.
  destruct (SINGLETON st) as [g|] eqn:Hs; simpl.
  - repeat split; [done | congruence | congruence].
  - pose proof (Hfresh _ Hin) as Hlt.
    repeat split.
    + rewrite lookup_insert_ne by lia. done.
    + intros [= E]. lia.
    + lia.
Qed.

Lemma exec_other st c a :
  store_ok st -> other_object st a -> other_object (exec st c) a.
Proof.
  intros Hok Ha. destruct c; cbn [exec].
  - destruct Hok as [Hfresh _]. destruct Ha as [Hin Hne].
    pose proof (Hfresh _ Hin) as Hlt.
    split; simpl; [|done]. rewrite lookup_insert_ne by lia. done.
  - unfold FillGradientAttribute_default, bind, ret.
    pose proof (theGlobalDefault_other st a Hok Ha) as [Hg _].
    destruct (theGlobalDefault st). exact Hg.
  - unfold isDefault, bind, ret.
    pose proof (theGlobalDefault_other st a Hok Ha) as [Hg _].
    destruct (theGlobalDefault st). exact Hg.
  - rewrite operator_eq_unfold. exact (proj1 (theGlobalDefault_other st a Hok Ha)).
Qed.

Lemma exec_all_other cs :
  forall st a,
    store_ok st -> other_object st a -> other_object (exec_all st cs) a.
Proof.
  unfold exec_all.
  induction cs as [|c cs IH]; intros st a Hok Ha; simpl; [done|].
  apply IH; [by apply exec_ok | by apply exec_other].
Qed.

Lemma other_not_default st this :
  store_ok st -> other_object st (mpFillGradientAttribute this) ->
  fst (isDefault this st) = false.
Proof.
  intros Hok Ha. rewrite isDefault_fst.
  destruct (same_object _ _) eqn:E; [|done].
  apply same_object_true in E.
  by destruct (theGlobalDefault_other st _ Hok Ha) as [_ Hne].
Qed.

(** The explicit constructor returns a new object other than the
    singleton, holding what [ImpFillGradientAttribute]'s constructor
    built. *)
Lemma ctor_other st eStyle fBorder fOffsetX fOffsetY fAngle
    rStartColor rEndColor pColorSteps nSteps :
  store_ok st ->
  let r := FillGradientAttribute_ctor eStyle fBorder fOffsetX fOffsetY
             fAngle rStartColor rEndColor pColorSteps nSteps st in
  other_object (snd r) (mpFillGradientAttribute (fst r))
  /\ objects (snd r) !! mpFillGradientAttribute (fst r)
     = Some (ImpFillGradientAttribute_ctor eStyle fBorder fOffsetX fOffsetY
               fAngle rStartColor rEndColor pColorSteps nSteps).
Proof.
  intros [Hfresh Hsingle]. simpl.
  assert (Hin : forall v : ImpFillGradientAttribute,
            <[fresh st := v]> (objects st) !! fresh st = Some v)
    by (intros v; apply lookup_insert_eq).
  repeat split; cbn [objects SINGLETON].
  - by rewrite Hin.
  - intros Hs. apply Hsingle in Hs.
    assert (fresh st < fresh st) by (apply Hfresh; by rewrite Hs). lia.
  - apply Hin.
Qed.

(** The default constructor returns the singleton. *)
Lemma default_is_singleton st :
  let r := FillGradientAttribute_default st in
  SINGLETON (snd r) = Some (mpFillGradientAttribute (fst r)).
Proof.
  unfold FillGradientAttribute_default, bind, ret.
  pose proof (theGlobalDefault_sets st) as Hs.
  by destruct (theGlobalDefault st).
Qed.

Lemma singleton_is_default st this :
  SINGLETON st = Some (mpFillGradientAttribute this) ->
  fst (isDefault this st) = true.
Proof.
  intros Hs. rewrite isDefault_fst, (theGlobalDefault_fixed _ _ Hs).
  by apply same_object_true.
Qed.


(** What [operator==] returns, in terms of [isDefault] and the objects. *)
Lemma operator_eq_fst this rCandidate st :
  store_ok st -> valid st this -> valid st rCandidate ->
  fst (operator_eq this rCandidate st)
  = if negb (eqb (fst (isDefault rCandidate st)) (fst (isDefault this st)))
    then false
    else same_object (mpFillGradientAttribute rCandidate)
           (mpFillGradientAttribute this)
         || Imp_eq (deref st (mpFillGradientAttribute rCandidate))
                   (deref st (mpFillGradientAttribute this)).
Proof.
  intros Hok Hthis Hcand. rewrite operator_eq_unfold, !isDefault_fst.
  cbn [fst]. destruct (theGlobalDefault_ok st Hok) as [_ Hext].
  by rewrite !(deref_extends st _ _ Hext).
Qed.


(** The same from the one fact it needs: [0.0 == 0.0]. *)
Lemma ctor_default_arguments :
  d_eq d_zero d_zero = true ->
  ImpFillGradientAttribute_ctor Linear d_zero d_zero d_zero d_zero
    BColor_default BColor_default None 0
  = ImpFillGradientAttribute_default.
Proof.
  intros Hzero.
  unfold ImpFillGradientAttribute_ctor, ImpFillGradientAttribute_default.
  f_equal. unfold build_steps, without_steps, BColor_ne, BColor_eq. simpl.
  by rewrite !Hzero.
Qed.

(** [operator==] of the vector and of the object against the description. *)
Lemma ColorStep_eq_compare (s t : ColorStep) :
  ColorStep_eq s t = true <-> steps_compare_equal s t.
Proof.
  unfold ColorStep_eq, BColor_eq, steps_compare_equal.
  rewrite !andb_true_iff. tauto.
Qed.

Lemma ColorSteps_eq_compare (a : ColorSteps) :
  forall b, ColorSteps_eq a b = true <-> Forall2 steps_compare_equal a b.
Proof.
  induction a as [|x a IH]; intros [|y b]; simpl.
  - split; [constructor | done].
  - split; [done | intros Hf; inversion Hf].
  - split; [done | intros Hf; inversion Hf].
  - rewrite andb_true_iff, ColorStep_eq_compare, IH. split.
    + intros [? ?]. by constructor.
    + intros Hf. by inversion Hf.
Qed.

Lemma GradientStyle_eqb_true (a b : GradientStyle) :
  GradientStyle_eqb a b = true <-> a = b.
Proof. destruct a, b; simpl; split; (done || discriminate). Qed.

Lemma Imp_eq_compare (a b : ImpFillGradientAttribute) :
  Imp_eq a b = true <-> fields_compare_equal a b.
Proof.
  unfold Imp_eq, fields_compare_equal.
  rewrite !andb_true_iff, GradientStyle_eqb_true, ColorSteps_eq_compare,
    Z.eqb_eq.
  tauto.
Qed.

Lemma fields_compare_equal_refl (a : ImpFillGradientAttribute) :
  eq_reflexive -> fields_compare_equal a a.
Proof.
  intros Hrefl. unfold fields_compare_equal.
  repeat split; try apply Hrefl.
  induction (maColorSteps a) as [|s l IH]; constructor; [|done].
  unfold steps_compare_equal. repeat split; apply Hrefl.
Qed.

Lemma default_fields_compare_equal :
  d_eq d_zero d_zero = true ->
  fields_compare_equal ImpFillGradientAttribute_default
    ImpFillGradientAttribute_default.
Proof.
  intros Hzero. unfold fields_compare_equal. simpl.
  repeat split; try done.
  constructor; [|constructor]. by repeat split.
Qed.

Lemma default_instance_iff st this :
  fst (isDefault this st) = true <-> default_instance st this.
Proof.
  rewrite isDefault_fst, same_object_true.
  unfold default_instance, FillGradientAttribute_default, bind, ret.
  destruct (theGlobalDefault st) as [a st1]. destruct this as [p]. simpl.
  split; [by intros -> | by intros [= ->]].
Qed.

Lemma default_instance_false st this :
  fst (isDefault this st) = false <-> ~ default_instance st this.
Proof.
  rewrite <- default_instance_iff. by destruct (fst (isDefault this st)).
Qed.

(** A handle to the singleton and a handle to another object are unequal. *)
Lemma singleton_other_unequal st d e :
  store_ok st ->
  SINGLETON st = Some (mpFillGradientAttribute d) ->
  other_object st (mpFillGradientAttribute e) ->
  fst (operator_eq e d st) = false /\ fst (operator_eq d e st) = false.
Proof.
  intros Hok Hd He.
  apply singleton_is_default in Hd. apply other_not_default in He; [|done].
  rewrite !operator_eq_unfold. cbn [fst].
  rewrite isDefault_fst in Hd, He. by rewrite Hd, He.
Qed.

Lemma default_ok st :
  store_ok st -> store_ok (snd (FillGradientAttribute_default st)).
Proof.
  intros Hok. unfold FillGradientAttribute_default, bind, ret.
  pose proof (theGlobalDefault_ok st Hok) as [Hg _].
  by destruct (theGlobalDefault st).
Qed.

Lemma ctor_ok st eStyle fBorder fOffsetX fOffsetY fAngle rStartColor
    rEndColor pColorSteps nSteps :
  store_ok st ->
  store_ok (snd (FillGradientAttribute_ctor eStyle fBorder fOffsetX fOffsetY
                   fAngle rStartColor rEndColor pColorSteps nSteps st)).
Proof.
  intros Hok.
  apply (exec_ok st (CallCtor eStyle fBorder fOffsetX fOffsetY fAngle
                       rStartColor rEndColor pColorSteps nSteps) Hok).
Qed.

(** *** C8 *)

(** C8: as worded, C8 holds where [==] on [double] is reflexive, that is,
    away from NaN; in general [operator==] also returns true for two
    handles to one object, whose fields it does not compare.  For two
    handles into a store, [operator==] returns true exactly when both are
    the default instance, or neither is and they share their object or
    style, border, offsets, angle, step count and colour steps compare
    equal.  Where [==] is reflexive this is equality as described.  The
    handle the default constructor returns and a handle the explicit
    constructor returns are never equal, in either order of construction
    and of comparison and whatever is called in between; this includes the
    explicitly constructed instance whose fields compare equal to those of
    the default instance. *)
Theorem C8_operator_eq st :
  store_ok st ->
  (forall this rCandidate,
     valid st this -> valid st rCandidate ->
     fst (operator_eq this rCandidate st) = true
     <-> (default_instance st this /\ default_instance st rCandidate)
         \/ (~ default_instance st this
             /\ ~ default_instance st rCandidate
             /\ (mpFillGradientAttribute rCandidate
                 = mpFillGradientAttribute this
                 \/ fields_compare_equal
                      (deref st (mpFillGradientAttribute rCandidate))
                      (deref st (mpFillGradientAttribute this)))))
  /\ (eq_reflexive ->
      forall this rCandidate,
        valid st this -> valid st rCandidate ->
        fst (operator_eq this rCandidate st) = true
        <-> equal_as_described st this rCandidate)
  /\ (forall eStyle fBorder fOffsetX fOffsetY fAngle rStartColor rEndColor
             pColorSteps nSteps cs1 cs2,
        let e := FillGradientAttribute_ctor eStyle fBorder fOffsetX fOffsetY
                   fAngle rStartColor rEndColor pColorSteps nSteps st in
        let d := FillGradientAttribute_default (exec_all (snd e) cs1) in
        let st' := exec_all (snd d) cs2 in
        fst (operator_eq (fst e) (fst d) st') = false
        /\ fst (operator_eq (fst d) (fst e) st') = false)
  /\ (forall eStyle fBorder fOffsetX fOffsetY fAngle rStartColor rEndColor
             pColorSteps nSteps cs1 cs2,
        let d := FillGradientAttribute_default st in
        let e := FillGradientAttribute_ctor eStyle fBorder fOffsetX fOffsetY
                   fAngle rStartColor rEndColor pColorSteps nSteps
                   (exec_all (snd d) cs1) in
        let st' := exec_all (snd e) cs2 in
        fst (operator_eq (fst e) (fst d) st') = false
        /\ fst (operator_eq (fst d) (fst e) st') = false)
  /\ (d_eq d_zero d_zero = true ->
      let e := FillGradientAttribute_ctor Linear d_zero d_zero d_zero d_zero
                 BColor_default BColor_default None 0 st in
      let d := FillGradientAttribute_default (snd e) in
      fields_compare_equal
        (deref (snd d) (mpFillGradientAttribute (fst e)))
        (deref (snd d) (mpFillGradientAttribute (fst d)))
      /\ fst (operator_eq (fst e) (fst d) (snd d)) = false
      /\ fst (operator_eq (fst d) (fst e) (snd d)) = false).
Proof.
  intros Hok.
  assert (Hcomputed : forall this rCandidate,
     valid st this -> valid st rCandidate ->
     fst (operator_eq this rCandidate st) = true
     <-> (default_instance st this /\ default_instance st rCandidate)
         \/ (~ default_instance st this
             /\ ~ default_instance st rCandidate
             /\ (mpFillGradientAttribute rCandidate
                 = mpFillGradientAttribute this
                 \/ fields_compare_equal
                      (deref st (mpFillGradientAttribute rCandidate))
                      (deref st (mpFillGradientAttribute this))))).
  { intros this rCandidate Hthis Hcand.
    rewrite operator_eq_fst by done.
    rewrite <- !default_instance_iff.
    rewrite <- Imp_eq_compare, <- same_object_true.
    destruct (fst (isDefault this st)) eqn:Ht,
             (fst (isDefault rCandidate st)) eqn:Hc; simpl.
    - apply default_instance_iff in Ht, Hc.
      unfold default_instance in Ht, Hc.
      assert (Hsame : same_object (mpFillGradientAttribute rCandidate)
                        (mpFillGradientAttribute this) = true)
        by (apply same_object_true; congruence).
      rewrite Hsame. simpl. split; [auto | done].
    - split; [done|]. intros [[_ ?] | [? _]]; done.
    - split; [done|]. intros [[? _] | (_ & ? & _)]; done.
    - rewrite orb_true_iff. split.
      + intros Hor. right. by repeat split.
      + intros [[? _] | (_ & _ & Hor)]; done. }
  assert (Hnever : forall st1 d e,
     store_ok st1 ->
     SINGLETON st1 = Some (mpFillGradientAttribute d) ->
     other_object st1 (mpFillGradientAttribute e) ->
     forall cs,
       fst (operator_eq e d (exec_all st1 cs)) = false
       /\ fst (operator_eq d e (exec_all st1 cs)) = false).
  { intros st1 d e Hok1 Hd He cs.
    destruct (exec_all_ok cs _ Hok1) as [Hok2 [Hkeep _]].
    apply singleton_other_unequal; [done | by apply Hkeep |].
    by apply exec_all_other. }
  split; [exact Hcomputed|]. split; [|split; [|split]].
  - intros Hrefl this rCandidate Hthis Hcand.
    rewrite (Hcomputed this rCandidate Hthis Hcand).
    unfold equal_as_described. split.
    + intros [Hboth | (Ht & Hc & [Hsame | Hfields])]; [by left | |].
      * right. split; [done|]. split; [done|].
        rewrite Hsame. by apply fields_compare_equal_refl.
      * right. by split.
    + intros [Hboth | (Ht & Hc & Hfields)]; [by left|].
      right. split; [done|]. split; [done|]. by right.
  - intros eStyle fBorder fOffsetX fOffsetY fAngle rStartColor rEndColor
      pColorSteps nSteps cs1 cs2 e d st'.
    pose proof (ctor_ok st eStyle fBorder fOffsetX fOffsetY fAngle
                  rStartColor rEndColor pColorSteps nSteps Hok) as Hoke.
    destruct (ctor_other st eStyle fBorder fOffsetX fOffsetY fAngle
                rStartColor rEndColor pColorSteps nSteps Hok) as [Hother _].
    fold e in Hoke, Hother.
    destruct (exec_all_ok cs1 _ Hoke) as [Hok1 _].
    apply Hnever.
    + by apply default_ok.
    + apply default_is_singleton.
    + apply (exec_other _ CallDefault); [done|].
      by apply exec_all_other.
  - intros eStyle fBorder fOffsetX fOffsetY fAngle rStartColor rEndColor
      pColorSteps nSteps cs1 cs2 d e st'.
    pose proof (default_ok st Hok) as Hokd.
    destruct (exec_all_ok cs1 _ Hokd) as [Hok1 [Hkeep1 _]].
    destruct (ctor_other (exec_all (snd d) cs1) eStyle fBorder fOffsetX
                fOffsetY fAngle rStartColor rEndColor pColorSteps nSteps
                Hok1) as [Hother _].
    fold e in Hother.
    apply Hnever.
    + by apply ctor_ok.
    + destruct (exec_ok (exec_all (snd d) cs1)
                  (CallCtor eStyle fBorder fOffsetX fOffsetY fAngle
                     rStartColor rEndColor pColorSteps nSteps) Hok1)
        as [_ [Hkeep2 _]].
      apply Hkeep2, Hkeep1, default_is_singleton.
    + done.
  - intros Hzero e d.
    pose proof (ctor_ok st Linear d_zero d_zero d_zero d_zero BColor_default
                  BColor_default None 0 Hok) as Hoke.
    destruct (ctor_other st Linear d_zero d_zero d_zero d_zero BColor_default
                BColor_default None 0 Hok) as [Hother Hin].
    fold e in Hoke, Hother, Hin.
    pose proof (default_ok _ Hoke) as Hokd. fold d in Hokd.
    pose proof (default_is_singleton (snd e)) as Hsingle.
    cbn zeta in Hsingle. fold d in Hsingle.
    destruct (exec_ok (snd e) CallDefault Hoke) as [_ [_ Hobjects]].
    cbn [exec] in Hobjects. fold d in Hobjects.
    split.
    + unfold deref. rewrite (Hobjects _ _ Hin).
      destruct Hokd as [_ Hdefault]. rewrite (Hdefault _ Hsingle). simpl.
      rewrite (ctor_default_arguments Hzero).
      by apply default_fields_compare_equal.
    + apply (Hnever (snd d) (fst d) (fst e) Hokd Hsingle
               (exec_other _ CallDefault _ Hoke Hother) []).
Qed.

(** *** C9 *)


(** * Further properties of the constructor *)

(** *** The loop stays inside the vector *)

Lemma loop_body_checked_Some rStartColor (st : band) :
  curr st < next st -> next st < length (vec st) ->
  loop_body_checked rStartColor st = Some (loop_body rStartColor st)
  /\ curr (loop_body rStartColor st) < next (loop_body rStartColor st)
  /\ length (vec (loop_body rStartColor st)) = length (vec st).
Proof.
  destruct st as [v c n b]. cbn [vec curr next bAllTheSameColor].
  intros Hcn Hn.
  destruct (lookup_lt_is_Some_2 v n Hn) as [sNext HsNext].
  destruct (lookup_lt_is_Some_2 v c ltac:(lia)) as [sCurr HsCurr].
  unfold loop_body_checked, loop_body, at_.
  cbn [vec curr next bAllTheSameColor]. unfold ColorSteps in *.
  rewrite HsNext, (nth_lookup_Some _ _ _ _ HsNext),
    (nth_lookup_Some _ _ _ _ HsCurr).
  cbn [mbind option_bind].
  destruct (fTools.lessOrEqual (getOffset sNext) d_zero);
    [cbn [continue vec curr next]; repeat split; lia|].
  destruct (fTools.moreOrEqual (getOffset sNext) d_one);
    [cbn [continue vec curr next]; repeat split; lia|].
  rewrite HsCurr. cbn [mbind option_bind].
  destruct (fTools.equal (getOffset sNext) (getOffset sCurr));
    [cbn [continue vec curr next]; repeat split; lia|].
  destruct (decide (S c <> n)) as [Hne | Heq].
  - rewrite decide_True by lia. cbn [mbind option_bind].
    rewrite list_lookup_insert_eq by lia. cbn [mbind option_bind].
    rewrite (nth_lookup_Some _ _ _ sNext)
      by (apply list_lookup_insert_eq; lia).
    cbn [vec curr next]. rewrite length_insert. repeat split; lia.
  - assert (S c = n) as <- by (destruct (decide (S c = n)); [done | tauto]).
    cbn [mbind option_bind]. rewrite HsNext. cbn [mbind option_bind].
    rewrite (nth_lookup_Some _ _ _ _ HsNext).
    cbn [vec curr next]. repeat split; lia.
Qed.

Lemma run_loop_checked_Some rStartColor (fuel : nat) :
  forall st,
    curr st < next st ->
    run_loop_checked rStartColor fuel st
    = Some (run_loop rStartColor fuel st)
    /\ length (vec (run_loop rStartColor fuel st)) = length (vec st)
    /\ curr (run_loop rStartColor fuel st)
       < next (run_loop rStartColor fuel st).
Proof.
  induction fuel as [|fuel IH]; intros st Hcn; cbn [run_loop_checked run_loop].
  - done.
  - destruct (next st <? length (vec st)) eqn:Hn; [|done].
    apply Nat.ltb_lt in Hn.
    destruct (loop_body_checked_Some rStartColor st Hcn Hn)
      as (Hbody & Hcn' & Hlen).
    rewrite Hbody. cbn [mbind option_bind].
    destruct (IH _ Hcn') as (Hrun & Hlen' & Hcn'').
    repeat split; [done | congruence | done].
Qed.

(** The compaction loop, started as the constructor starts it on a vector
    that holds at least the start step, makes no access outside the vector
    and leaves the loop with [next] at the size of the vector.  The size is
    unchanged and [curr] stays below it, so the [resize] that follows only
    truncates, and index 0 still holds what it held. *)
Theorem loop_in_bounds rStartColor (x : ColorStep) (l : ColorSteps) (b : bool) :
  exists st',
    run_loop_checked rStartColor (length (x :: l)) (MkBand (x :: l) 0 1 b)
    = Some st'
    /\ st' = run_loop rStartColor (length (x :: l)) (MkBand (x :: l) 0 1 b)
    /\ next st' = length (x :: l)
    /\ length (vec st') = length (x :: l)
    /\ S (curr st') <= length (vec st')
    /\ vec st' !! 0 = Some x.
Proof.
  eexists.
  destruct (run_loop_checked_Some rStartColor (length (x :: l))
              (MkBand (x :: l) 0 1 b) ltac:(simpl; lia)) as (Hrun & Hlen & _).
  split; [exact Hrun|]. split; [done|].
  destruct (run_loop_spec rStartColor l [] x [] b (length (x :: l))
              ltac:(simpl; lia)) as (mid' & Hspec & Hl).
  cbn [app length Nat.add] in Hspec. cbn [length]. rewrite Hspec.
  cbn [vec curr next length]. rewrite !length_app in *. simpl in Hl.
  repeat split; lia.
Qed.

(** *** Raw steps that are already in order *)

Lemma Sorted_weaken (R1 R2 : ColorStep -> ColorStep -> Prop) (l : ColorSteps) :
  (forall a b, R1 a b -> R2 a b) -> Sorted R1 l -> Sorted R2 l.
Proof.
  intros Hsub. induction 1 as [|a l Hl IH Hhd]; constructor; [done|].
  destruct Hhd; constructor. by apply Hsub.
Qed.

Lemma survivors_keeps_all (l : ColorSteps) :
  forall last,
    Forall inside l -> Sorted ascending_apart l ->
    (forall s l', l = s :: l' -> fTools.equal (getOffset s) last = false) ->
    survivors last l = l.
Proof.
  induction l as [|s l IH]; intros last Hin Hsorted Hhd; simpl; [done|].
  apply Forall_cons in Hin as [[H0 H1] Hin].
  apply Sorted_inv in Hsorted as [Hsorted Hrel].
  rewrite H0, H1, (Hhd s l eq_refl). f_equal.
  apply IH; [done..|].
  intros t l' ->. apply HdRel_inv in Hrel. by destruct Hrel.
Qed.

Lemma ascending_strongly (l : ColorSteps) :
  Sorted ascending_apart l ->
  StronglySorted (fun a b => ColorStep_lt a b = true) l.
Proof using lt_trans.
  intros Hsorted.
  apply Sorted.Sorted_StronglySorted.
  - intros a b c Hab Hbc. unfold ColorStep_lt in *. by eapply lt_trans.
  - eapply Sorted_weaken; [|exact Hsorted]. by intros a b [? _].
Qed.

Lemma ascending_ties_agree (l : ColorSteps) :
  StronglySorted (fun a b => ColorStep_lt a b = true) l -> ties_agree l.
Proof using lt_irrefl lt_trans.
  unfold ColorStep_lt.
  induction 1 as [|a l Hl IH Ha]; intros x y Hx Hy Hxy; [done|].
  rewrite Forall_forall in Ha.
  apply same_offset_iff in Hxy as [Hxy Hyx].
  destruct Hx as [<- | Hx], Hy as [<- | Hy]; [done| | |].
  - apply list_elem_of_In, Ha in Hy. congruence.
  - apply list_elem_of_In, Ha in Hx. congruence.
  - apply IH; [done..|]. by apply same_offset_iff.
Qed.

Lemma ascending_not_greater (l : ColorSteps) :
  StronglySorted (fun a b => ColorStep_lt a b = true) l ->
  StronglySorted not_greater l.
Proof using lt_irrefl lt_trans.
  induction 1 as [|a l Hl IH Ha]; constructor; [done|].
  eapply Forall_impl; [exact Ha|].
  intros b Hab. unfold not_greater, ColorStep_lt in *.
  by apply lt_asymmetric.
Qed.

(** A range has one sorted arrangement when its ties agree. *)
Lemma sorted_arrangement_unique (l1 l2 : ColorSteps) :
  StronglySorted not_greater l1 -> StronglySorted not_greater l2 ->
  l1 ≡ₚ l2 -> ties_agree l2 -> l1 = l2.
Proof.
  intros H1 H2 Hperm Hties.
  apply (StronglySorted_unique_strong not_greater); [|done..].
  intros x1 x2 Hx1 Hx2 H12 H21.
  apply Hties.
  - apply list_elem_of_In. by rewrite <- Hperm.
  - by apply list_elem_of_In.
  - apply same_offset_iff. unfold not_greater, ColorStep_lt in *. done.
Qed.

Lemma ties_agree_Permutation (l1 l2 : ColorSteps) :
  l1 ≡ₚ l2 -> ties_agree l1 -> ties_agree l2.
Proof.
  intros Hperm Hties x y Hx Hy. apply Hties.
  - apply list_elem_of_In. rewrite Hperm. by apply list_elem_of_In.
  - apply list_elem_of_In. rewrite Hperm. by apply list_elem_of_In.
Qed.

Lemma std_sort_fixed (l : ColorSteps) :
  StronglySorted not_greater l -> ties_agree l -> std_sort l = l.
Proof using sort_sorts sort_permutes.
  intros Hsorted Hties.
  apply sorted_arrangement_unique; [apply sort_sorts | done | | done].
  apply sort_permutes.
Qed.

Lemma kept_of_well_formed (raw : ColorSteps) :
  well_formed raw -> kept (Some raw) = raw.
Proof using sort_sorts sort_permutes lt_irrefl lt_trans.
  intros [Hin Hsorted]. unfold kept.
  destruct raw as [|r raw]; [done|].
  pose proof (ascending_strongly _ Hsorted) as Hstrong.
  rewrite std_sort_fixed
    by (first [by apply ascending_not_greater | by apply ascending_ties_agree]).
  apply survivors_keeps_all; [done..|].
  intros s l' [= <- <-].
  apply Forall_cons in Hin as [[H0 _] _].
  by apply orb_false_iff in H0 as [_ ?].
Qed.

(** Raw steps that lie inside the range, ascend strictly and have
    neighbours apart are all kept, in their order: the result is the start
    step, the raw steps and the end step, unless start colour, end colour
    and all raw colours are the same. *)
Theorem well_formed_kept rStartColor rEndColor (raw : ColorSteps) :
  well_formed raw ->
  build_steps rStartColor rEndColor (Some raw)
  = if BColor_eq rStartColor rEndColor && all_color rStartColor raw
    then [MkColorStep d_zero rStartColor]
    else MkColorStep d_zero rStartColor :: raw
           ++ [MkColorStep d_one rEndColor].
Proof using sort_sorts sort_permutes lt_irrefl lt_trans.
  intros Hwf. rewrite build_steps_flat_or_full. unfold flat.
  by rewrite (kept_of_well_formed raw Hwf).
Qed.

Lemma kept_well_formed pColorSteps : well_formed (kept pColorSteps).
Proof using sort_sorts equal_level equal_sym.
  split; [apply kept_inside|].
  unfold kept. destruct pColorSteps as [[|r raw]|]; try constructor.
  apply (Sorted_weaken strictly_apart); [by intros a b (? & _ & ?)|].
  eapply (Sorted_inv (a := MkColorStep d_zero BColor_default)).
  apply (survivors_Sorted _ (MkColorStep d_zero BColor_default));
    [apply sort_sorts|].
  apply Forall_forall. intros s _ Hs.
  by apply orb_false_iff in Hs as [? _].
Qed.

(** The result is a fixed point: constructing again from the steps between
    the first and the last of a result, with the same start and end
    colours, gives that result. *)
Theorem build_steps_idempotent rStartColor rEndColor pColorSteps :
  build_steps rStartColor rEndColor
    (Some (intermediate (build_steps rStartColor rEndColor pColorSteps)))
  = build_steps rStartColor rEndColor pColorSteps.
Proof using sort_sorts sort_permutes lt_irrefl lt_trans equal_level equal_sym.
  rewrite intermediate_build_steps.
  rewrite (build_steps_flat_or_full _ _ pColorSteps).
  destruct (flat rStartColor rEndColor pColorSteps) eqn:Hflat.
  - rewrite build_steps_flat_or_full, flat_without_steps by done.
    unfold flat in Hflat. apply andb_true_iff in Hflat as [-> _]. done.
  - rewrite build_steps_flat_or_full. unfold flat in *.
    rewrite (kept_of_well_formed _ (kept_well_formed pColorSteps)).
    by rewrite Hflat.
Qed.

(** *** The order of the raw steps *)

Lemma kept_Permutation (raw raw' : ColorSteps) :
  raw ≡ₚ raw' -> ties_agree raw -> kept (Some raw) = kept (Some raw').
Proof using sort_sorts sort_permutes.
  intros Hperm Hties.
  assert (Hsort : std_sort raw = std_sort raw').
  { apply sorted_arrangement_unique; [apply sort_sorts..| |].
    - etrans; [apply sort_permutes|].
      etrans; [exact Hperm|]. symmetry. apply sort_permutes.
    - apply (ties_agree_Permutation raw); [|done].
      etrans; [exact Hperm|]. symmetry. apply sort_permutes. }
  unfold kept. destruct raw as [|r raw], raw' as [|r' raw'].
  - done.
  - by apply Permutation_nil_cons in Hperm.
  - symmetry in Hperm. by apply Permutation_nil_cons in Hperm.
  - by rewrite Hsort.
Qed.

(** When raw steps with equal offsets also have equal colours, the order
    in which the raw steps are supplied does not matter. *)
Theorem build_steps_order_independent rStartColor rEndColor
    (raw raw' : ColorSteps) :
  raw ≡ₚ raw' -> ties_agree raw ->
  build_steps rStartColor rEndColor (Some raw)
  = build_steps rStartColor rEndColor (Some raw').
Proof using sort_sorts sort_permutes.
  intros Hperm Hties. rewrite !build_steps_flat_or_full. unfold flat.
  by rewrite (kept_Permutation raw raw' Hperm Hties).
Qed.

(** *** Raw steps outside the range *)

Lemma insideb_true (s : ColorStep) : insideb s = true <-> inside s.
Proof.
  unfold insideb, inside. rewrite andb_true_iff, !negb_true_iff. done.
Qed.

Lemma survivors_in_range (l : ColorSteps) :
  forall last, survivors last (in_range l) = survivors last l.
Proof.
  unfold in_range.
  induction l as [|s l IH]; intros last; [done|].
  rewrite filter_cons. destruct (decide (insideb s = true)) as [Hs | Hs].
  - apply insideb_true in Hs as [H0 H1]. simpl. rewrite H0, H1.
    destruct (fTools.equal (getOffset s) last); by rewrite IH.
  - simpl. rewrite IH. unfold insideb in Hs.
    destruct (fTools.lessOrEqual (getOffset s) d_zero); [done|].
    destruct (fTools.moreOrEqual (getOffset s) d_one); [done|].
    by destruct Hs.
Qed.

Lemma in_range_sorted (l : ColorSteps) :
  StronglySorted not_greater l -> StronglySorted not_greater (in_range l).
Proof.
  unfold in_range.
  induction 1 as [|a l Hl IH Ha]; [constructor|].
  rewrite filter_cons. destruct (decide (insideb a = true)); [|done].
  constructor; [done|].
  apply Forall_forall. intros b [_ Hb]%list_elem_of_filter.
  rewrite Forall_forall in Ha. by apply Ha.
Qed.

Lemma kept_in_range (raw : ColorSteps) :
  ties_agree (in_range raw) ->
  kept (Some (in_range raw)) = kept (Some raw).
Proof using sort_sorts sort_permutes.
  intros Hties.
  assert (Hperm : std_sort (in_range raw) ≡ₚ in_range (std_sort raw)).
  { etrans; [apply sort_permutes|]. unfold in_range.
    apply filter_Permutation. symmetry. apply sort_permutes. }
  assert (Hsort : std_sort (in_range raw) = in_range (std_sort raw)).
  { apply sorted_arrangement_unique;
      [apply sort_sorts | apply in_range_sorted, sort_sorts | done |].
    apply (ties_agree_Permutation (in_range raw)); [|done].
    unfold in_range. apply filter_Permutation. symmetry. apply sort_permutes. }
  assert (Hkept : survivors d_zero (std_sort (in_range raw))
                  = survivors d_zero (std_sort raw))
    by (by rewrite Hsort, survivors_in_range).
  unfold kept. destruct raw as [|r raw]; [done|].
  destruct (in_range (r :: raw)) as [|r' raw'] eqn:Hr; [|done].
  rewrite <- Hkept.
  assert (Hnil : std_sort [] = [])
    by (apply Permutation_nil_r, sort_permutes).
  by rewrite Hnil.
Qed.

(** Raw steps outside the range count for nothing: leaving them out of the
    raw steps gives the same result, provided that the raw steps inside the
    range that have equal offsets have equal colours; and raw steps none of
    which is inside the range give what no raw steps give. *)
Theorem out_of_range_irrelevant rStartColor rEndColor (raw : ColorSteps) :
  (ties_agree (in_range raw) ->
   build_steps rStartColor rEndColor (Some (in_range raw))
   = build_steps rStartColor rEndColor (Some raw))
  /\ (in_range raw = [] ->
      build_steps rStartColor rEndColor (Some raw)
      = build_steps rStartColor rEndColor None).
Proof using sort_sorts sort_permutes.
  assert (Hfilter : ties_agree (in_range raw) ->
            build_steps rStartColor rEndColor (Some (in_range raw))
            = build_steps rStartColor rEndColor (Some raw)).
  { intros Hties. rewrite !build_steps_flat_or_full. unfold flat.
    by rewrite (kept_in_range raw Hties). }
  split; [done|].
  intros Hnone. rewrite <- Hfilter by (rewrite Hnone; by intros x y []).
  rewrite Hnone, !build_steps_canonical. done.
Qed.

(** *** [hasSingleColor] *)

Lemma BColor_eq_refl (c : BColor) : BColor_eq c c = true.
Proof using eq_refl_d. unfold BColor_eq. by rewrite !eq_refl_d. Qed.

Lemma hasSingleColor_flat eStyle fBorder fOffsetX fOffsetY fAngle
    rStartColor rEndColor pColorSteps nSteps :
  hasSingleColor
    (ImpFillGradientAttribute_ctor eStyle fBorder fOffsetX fOffsetY fAngle
       rStartColor rEndColor pColorSteps nSteps)
  = flat rStartColor rEndColor pColorSteps.
Proof.
  unfold hasSingleColor, ImpFillGradientAttribute_ctor. cbn [maColorSteps].
  rewrite build_steps_flat_or_full.
  destruct (flat rStartColor rEndColor pColorSteps); [done|].
  apply Nat.ltb_ge. simpl. rewrite length_app. simpl. lia.
Qed.

(** [hasSingleColor], which only looks at the size of the vector, is true
    exactly when the constructor collapsed the steps, and that is exactly
    when all steps of the result, the end step included, have one
    colour. *)
Theorem hasSingleColor_one_color eStyle fBorder fOffsetX fOffsetY fAngle
    rStartColor rEndColor pColorSteps nSteps :
  hasSingleColor
    (ImpFillGradientAttribute_ctor eStyle fBorder fOffsetX fOffsetY fAngle
       rStartColor rEndColor pColorSteps nSteps)
  = flat rStartColor rEndColor pColorSteps
  /\ (hasSingleColor
        (ImpFillGradientAttribute_ctor eStyle fBorder fOffsetX fOffsetY
           fAngle rStartColor rEndColor pColorSteps nSteps) = true
      <-> one_color (build_steps rStartColor rEndColor pColorSteps)).
Proof using eq_refl_d.
  rewrite hasSingleColor_flat. split; [done|].
  rewrite build_steps_flat_or_full.
  destruct (flat rStartColor rEndColor pColorSteps) eqn:Hflat.
  - split; [|done].
    intros _ s t [<- | []] [<- | []]. apply BColor_eq_refl.
  - split; [done|].
    intros Hone. apply one_color_flat in Hone. congruence.
Qed.

(** *** What the loop leaves behind *)

Lemma loop_final_state rStartColor rEndColor (r : ColorStep) (raw : ColorSteps) :
  exists mid',
    run_loop rStartColor
      (length (MkColorStep d_zero rStartColor :: std_sort (r :: raw)))
      (MkBand (MkColorStep d_zero rStartColor :: std_sort (r :: raw)) 0 1
         (BColor_eq rStartColor rEndColor))
    = MkBand
        (MkColorStep d_zero rStartColor :: kept (Some (r :: raw)) ++ mid')
        (length (kept (Some (r :: raw))))
        (length (MkColorStep d_zero rStartColor :: std_sort (r :: raw)))
        (flat rStartColor rEndColor (Some (r :: raw))).
Proof.
  destruct (run_loop_spec rStartColor (std_sort (r :: raw)) []
              (MkColorStep d_zero rStartColor) []
              (BColor_eq rStartColor rEndColor)
              (length (MkColorStep d_zero rStartColor :: std_sort (r :: raw)))
              ltac:(simpl; lia)) as (mid' & Hrun & _).
  exists mid'. exact Hrun.
Qed.

(** The in-place compaction computes what a left-to-right filter computes:
    when the loop ends, the entries up to [curr] are the start step
    followed by the survivors in their order, and [bAllTheSameColor] holds
    exactly when the start colour equals the end colour and every survivor
    has the start colour. *)
Theorem loop_computes_survivors rStartColor rEndColor (r : ColorStep)
    (raw : ColorSteps) :
  take (S (curr
             (run_loop rStartColor
                (length (MkColorStep d_zero rStartColor :: std_sort (r :: raw)))
                (MkBand (MkColorStep d_zero rStartColor :: std_sort (r :: raw))
                   0 1 (BColor_eq rStartColor rEndColor)))))
    (vec (run_loop rStartColor
            (length (MkColorStep d_zero rStartColor :: std_sort (r :: raw)))
            (MkBand (MkColorStep d_zero rStartColor :: std_sort (r :: raw))
               0 1 (BColor_eq rStartColor rEndColor))))
  = MkColorStep d_zero rStartColor :: survivors d_zero (std_sort (r :: raw))
  /\ bAllTheSameColor
       (run_loop rStartColor
          (length (MkColorStep d_zero rStartColor :: std_sort (r :: raw)))
          (MkBand (MkColorStep d_zero rStartColor :: std_sort (r :: raw))
             0 1 (BColor_eq rStartColor rEndColor)))
     = BColor_eq rStartColor rEndColor
       && all_color rStartColor (survivors d_zero (std_sort (r :: raw))).
Proof.
  destruct (loop_final_state rStartColor rEndColor r raw) as (mid' & ->).
  cbn [vec curr bAllTheSameColor]. split; [|done].
  change (kept (Some (r :: raw))) with (survivors d_zero (std_sort (r :: raw))).
  set (k := survivors d_zero (std_sort (r :: raw))).
  change (take (length (MkColorStep d_zero rStartColor :: k))
            ((MkColorStep d_zero rStartColor :: k) ++ mid')
          = MkColorStep d_zero rStartColor :: k).
  by rewrite take_app_length.
Qed.

(** When the loop ends without all colours being the same, the test
    [curr > 1 || rStartColor != rEndColor] that guards the appending of the
    end step holds, so that branch always appends. *)
Theorem end_step_test_holds rStartColor rEndColor (r : ColorStep)
    (raw : ColorSteps) :
  bAllTheSameColor
    (run_loop rStartColor
       (length (MkColorStep d_zero rStartColor :: std_sort (r :: raw)))
       (MkBand (MkColorStep d_zero rStartColor :: std_sort (r :: raw))
          0 1 (BColor_eq rStartColor rEndColor))) = false ->
  (1 <? S (curr
             (run_loop rStartColor
                (length (MkColorStep d_zero rStartColor :: std_sort (r :: raw)))
                (MkBand (MkColorStep d_zero rStartColor :: std_sort (r :: raw))
                   0 1 (BColor_eq rStartColor rEndColor)))))
  || BColor_ne rStartColor rEndColor = true.
Proof.
  destruct (loop_final_state rStartColor rEndColor r raw) as (mid' & ->).
  cbn [vec curr bAllTheSameColor]. unfold flat, BColor_ne.
  destruct (BColor_eq rStartColor rEndColor); [|by rewrite orb_true_r].
  destruct (kept (Some (r :: raw))); [done|]. intros _.
  apply orb_true_iff. left. apply Nat.ltb_lt. simpl. lia.
Qed.

(** * Further properties of the handle class *)

(** *** Instances built from the same arguments *)

(** Two explicit constructions from the same arguments, whatever is called
    in between, give two distinct objects that [operator==] finds equal, in
    either order. *)
Theorem same_arguments_equal st eStyle fBorder fOffsetX fOffsetY fAngle
    rStartColor rEndColor pColorSteps nSteps cs :
  store_ok st ->
  let r1 := FillGradientAttribute_ctor eStyle fBorder fOffsetX fOffsetY
              fAngle rStartColor rEndColor pColorSteps nSteps st in
  let r2 := FillGradientAttribute_ctor eStyle fBorder fOffsetX fOffsetY
              fAngle rStartColor rEndColor pColorSteps nSteps
              (exec_all (snd r1) cs) in
  mpFillGradientAttribute (fst r1) <> mpFillGradientAttribute (fst r2)
  /\ fst (operator_eq (fst r1) (fst r2) (snd r2)) = true
  /\ fst (operator_eq (fst r2) (fst r1) (snd r2)) = true.
Proof using eq_refl_d.
  intros Hok r1 r2.
  set (imp := ImpFillGradientAttribute_ctor eStyle fBorder fOffsetX fOffsetY
                fAngle rStartColor rEndColor pColorSteps nSteps).
  destruct (new_impl_ok st imp Hok) as [Hok1 _].
  destruct (ctor_other st eStyle fBorder fOffsetX fOffsetY fAngle rStartColor
              rEndColor pColorSteps nSteps Hok) as [Hother1 Hin1].
  fold r1 imp in Hother1, Hin1.
  change (snd (new_impl imp st)) with (snd r1) in Hok1.
  destruct (exec_all_ok cs _ Hok1) as [Hok1' [_ Hobj1']].
  pose proof (exec_all_other cs _ _ Hok1 Hother1) as Hother1'.
  pose proof (Hobj1' _ _ Hin1) as Hin1'.
  destruct (new_impl_ok (exec_all (snd r1) cs) imp Hok1') as [Hok2 [_ Hobj2]].
  destruct (ctor_other (exec_all (snd r1) cs) eStyle fBorder fOffsetX fOffsetY
              fAngle rStartColor rEndColor pColorSteps nSteps Hok1')
    as [Hother2 Hin2].
  fold r2 imp in Hother2, Hin2.
  change (snd (new_impl imp (exec_all (snd r1) cs))) with (snd r2)
    in Hok2, Hobj2.
  pose proof (Hobj2 _ _ Hin1') as Hin12.
  assert (Hother12 : other_object (snd r2) (mpFillGradientAttribute (fst r1))).
  { apply (exec_other (exec_all (snd r1) cs)
             (CallCtor eStyle fBorder fOffsetX fOffsetY fAngle rStartColor
                rEndColor pColorSteps nSteps)); done. }
  assert (Hne : mpFillGradientAttribute (fst r1)
                <> mpFillGradientAttribute (fst r2)).
  { destruct Hok1' as [Hfresh _].
    assert (mpFillGradientAttribute (fst r1) < fresh (exec_all (snd r1) cs))
      by (apply Hfresh; by rewrite Hin1').
    simpl in *. lia. }
  assert (Hd1 : fst (isDefault (fst r1) (snd r2)) = false)
    by (by apply other_not_default).
  assert (Hd2 : fst (isDefault (fst r2) (snd r2)) = false)
    by (by apply other_not_default).
  split; [done|].
  rewrite !operator_eq_fst by (done || (unfold valid; by rewrite ?Hin12, ?Hin2)).
  rewrite Hd1, Hd2. unfold deref. rewrite Hin12, Hin2. simpl.
  rewrite Imp_eq_refl, !orb_true_r. done.
Qed.

(** *** [operator==] as a relation *)

Lemma GradientStyle_eqb_eq (a b : GradientStyle) :
  GradientStyle_eqb a b = true <-> a = b.
Proof. destruct a, b; simpl; split; congruence. Qed.

Lemma BColor_eq_sym (a b : BColor) : BColor_eq a b = BColor_eq b a.
Proof using eq_sym_d.
  unfold BColor_eq.
  by rewrite (eq_sym_d (getRed a)), (eq_sym_d (getGreen a)),
    (eq_sym_d (getBlue a)).
Qed.

Lemma BColor_eq_trans (a b c : BColor) :
  BColor_eq a b = true -> BColor_eq b c = true -> BColor_eq a c = true.
Proof using eq_trans_d.
  unfold BColor_eq. rewrite !andb_true_iff.
  intros [[? ?] ?] [[? ?] ?]. repeat split; by eapply eq_trans_d.
Qed.

Lemma ColorSteps_eq_sym (l k : ColorSteps) :
  ColorSteps_eq l k = ColorSteps_eq k l.
Proof using eq_sym_d.
  revert k. induction l as [|x l IH]; intros [|y k]; simpl; try done.
  unfold ColorStep_eq.
  by rewrite IH, (eq_sym_d (getOffset x)), (BColor_eq_sym (getColor x)).
Qed.

Lemma ColorSteps_eq_trans (l k m : ColorSteps) :
  ColorSteps_eq l k = true -> ColorSteps_eq k m = true ->
  ColorSteps_eq l m = true.
Proof using eq_trans_d.
  revert k m. induction l as [|x l IH]; intros [|y k] [|z m]; simpl; try done.
  unfold ColorStep_eq. rewrite !andb_true_iff.
  intros [[? ?] ?] [[? ?] ?]. repeat split.
  - by eapply eq_trans_d.
  - by eapply BColor_eq_trans.
  - by eapply IH.
Qed.

Lemma Imp_eq_sym (a b : ImpFillGradientAttribute) : Imp_eq a b = Imp_eq b a.
Proof using eq_sym_d.
  unfold Imp_eq.
  rewrite (eq_sym_d (mfBorder a)), (eq_sym_d (mfOffsetX a)),
    (eq_sym_d (mfOffsetY a)), (eq_sym_d (mfAngle a)),
    (ColorSteps_eq_sym (maColorSteps a)), (Z.eqb_sym (mnSteps a)).
  by destruct (meStyle a), (meStyle b).
Qed.

Lemma Imp_eq_trans (a b c : ImpFillGradientAttribute) :
  Imp_eq a b = true -> Imp_eq b c = true -> Imp_eq a c = true.
Proof using eq_trans_d.
  unfold Imp_eq. rewrite !andb_true_iff, !GradientStyle_eqb_eq, !Z.eqb_eq.
  intros [[[[[[? ?] ?] ?] ?] ?] ?] [[[[[[? ?] ?] ?] ?] ?] ?].
  repeat split; try congruence; try (by eapply eq_trans_d).
  by eapply ColorSteps_eq_trans.
Qed.

(** [operator==] is an equivalence relation, given that [==] on [double] is
    symmetric and transitive.  An instance equals itself and its copies
    whatever its fields hold, since sharing the object is enough; a copy is
    the default instance exactly when the original is. *)
Theorem operator_eq_equivalence st :
  (forall a, fst (operator_eq a a st) = true)
  /\ (forall a,
        fst (operator_eq (fst (FillGradientAttribute_copy a st)) a st) = true
        /\ fst (isDefault (fst (FillGradientAttribute_copy a st)) st)
           = fst (isDefault a st)
        /\ snd (FillGradientAttribute_copy a st) = st)
  /\ (forall a b, fst (operator_eq a b st) = fst (operator_eq b a st))
  /\ (forall a b c,
        fst (operator_eq a b st) = true ->
        fst (operator_eq b c st) = true ->
        fst (operator_eq a c st) = true).
Proof using eq_sym_d eq_trans_d.
  assert (Hrefl : forall a, fst (operator_eq a a st) = true).
  { intros a. rewrite operator_eq_unfold. cbn [fst].
    rewrite eqb_reflx. simpl.
    replace (same_object _ _) with true; [done|].
    symmetry. by apply same_object_true. }
  split; [done|]. split; [|split].
  - intros [a]. unfold FillGradientAttribute_copy, ret. simpl. split; [|done].
    apply Hrefl.
  - intros a b. rewrite !operator_eq_unfold. cbn [fst].
    rewrite (Imp_eq_sym (deref _ (mpFillGradientAttribute b))).
    unfold same_object.
    rewrite (Nat.eqb_sym (mpFillGradientAttribute b)
               (mpFillGradientAttribute a)).
    by destruct (mpFillGradientAttribute b =? _),
                (mpFillGradientAttribute a =? fst (theGlobalDefault st)).
  - intros a b c. rewrite !operator_eq_unfold. cbn [fst].
    set (g := fst (theGlobalDefault st)).
    set (st1 := snd (theGlobalDefault st)).
    destruct (same_object (mpFillGradientAttribute a) g) eqn:Ha,
             (same_object (mpFillGradientAttribute b) g) eqn:Hb,
             (same_object (mpFillGradientAttribute c) g) eqn:Hc;
      simpl; try done.
    + intros _ _. apply same_object_true in Ha, Hc.
      replace (same_object _ _) with true; [done|].
      symmetry. apply same_object_true. congruence.
    + intros Hba Hcb.
      apply orb_true_iff in Hba as [Hba | Hba];
        apply orb_true_iff in Hcb as [Hcb | Hcb];
        try apply same_object_true in Hba;
        try apply same_object_true in Hcb.
      * apply orb_true_iff. left. apply same_object_true. congruence.
      * rewrite <- Hba. by rewrite Hcb, orb_true_r.
      * rewrite Hcb. by rewrite Hba, orb_true_r.
      * by rewrite (Imp_eq_trans _ _ _ Hcb Hba), orb_true_r.
Qed.

(** *** The accessors *)

(** An instance keeps what it was constructed with: after any calls, the
    accessors of an explicitly constructed instance return the constructor
    arguments, [getColorSteps] returns the steps the constructor built, and
    [hasSingleColor] tells whether they collapsed. *)
Theorem accessors_return_arguments st eStyle fBorder fOffsetX fOffsetY
    fAngle rStartColor rEndColor pColorSteps nSteps cs :
  store_ok st ->
  let r := FillGradientAttribute_ctor eStyle fBorder fOffsetX fOffsetY
             fAngle rStartColor rEndColor pColorSteps nSteps st in
  let st' := exec_all (snd r) cs in
  fst (getStyle (fst r) st') = eStyle
  /\ fst (getBorder (fst r) st') = fBorder
  /\ fst (getOffsetX (fst r) st') = fOffsetX
  /\ fst (getOffsetY (fst r) st') = fOffsetY
  /\ fst (getAngle (fst r) st') = fAngle
  /\ fst (getSteps (fst r) st') = nSteps
  /\ fst (getColorSteps (fst r) st')
     = build_steps rStartColor rEndColor pColorSteps
  /\ fst (FillGradientAttribute_hasSingleColor (fst r) st')
     = flat rStartColor rEndColor pColorSteps.
Proof.
  intros Hok r st'.
  set (imp := ImpFillGradientAttribute_ctor eStyle fBorder fOffsetX fOffsetY
                fAngle rStartColor rEndColor pColorSteps nSteps).
  destruct (new_impl_ok st imp Hok) as [Hok1 _].
  destruct (ctor_other st eStyle fBorder fOffsetX fOffsetY fAngle rStartColor
              rEndColor pColorSteps nSteps Hok) as [_ Hin].
  fold r imp in Hin.
  change (snd (new_impl imp st)) with (snd r) in Hok1.
  destruct (exec_all_ok cs _ Hok1) as [_ [_ Hobj]].
  pose proof (Hobj _ _ Hin) as Hin'. fold st' in Hin'.
  unfold getStyle, getBorder, getOffsetX, getOffsetY, getAngle, getSteps,
    getColorSteps, FillGradientAttribute_hasSingleColor, forward, deref.
  cbn [fst]. rewrite Hin'. cbn [default from_option id].
  repeat split; try done. apply hasSingleColor_flat.
Qed.

End Model.

(** * The rational instance satisfies the assumptions *)

Lemma Q_lt_true (a b : Q) : Q_lt a b = true <-> (a < b)%Q.
Proof.
  unfold Q_lt. rewrite negb_true_iff.
  destruct (Qle_bool b a) eqn:E.
  - apply Qle_bool_iff in E. split; [done | intros; exfalso; lra].
  - split; [|done]. intros _. apply Qnot_le_lt. intros Hle.
    apply Qle_bool_iff in Hle. congruence.
Qed.

Lemma Q_lt_false (a b : Q) : Q_lt a b = false <-> (b <= a)%Q.
Proof.
  unfold Q_lt. rewrite negb_false_iff. apply Qle_bool_iff.
Qed.

Lemma Q_lt_irreflexive : lt_irreflexive (double := Q).
Proof. intros x. apply Q_lt_false. lra. Qed.

Lemma Q_lt_transitive : lt_transitive (double := Q).
Proof.
  intros x y z Hxy%Q_lt_true Hyz%Q_lt_true. apply Q_lt_true. lra.
Qed.

Lemma Q_lt_negatively_transitive : lt_negatively_transitive (double := Q).
Proof.
  intros x y z Hxz%Q_lt_true.
  destruct (Qlt_le_dec x y) as [Hxy | Hyx].
  - left. by apply Q_lt_true.
  - right. apply Q_lt_true. lra.
Qed.

Lemma Q_eq_reflexive : eq_reflexive (double := Q).
Proof. intros x. apply Qeq_bool_iff. lra. Qed.

(** Equality within the tolerance, as a proposition. *)
Lemma Q_approxEqual_true (a b : Q) :
  Q_approxEqual a b = true
  <-> (a == b \/ (Qabs (a - b) < e48 * Qabs a /\ Qabs (a - b) < e48 * Qabs b))%Q.
Proof.
  unfold Q_approxEqual.
  rewrite orb_true_iff, andb_true_iff, !Q_lt_true, Qeq_bool_iff. done.
Qed.

Lemma Qabs_cases (t : Q) :
  ((0 <= t /\ Qabs t == t) \/ (t <= 0 /\ Qabs t == - t))%Q.
Proof.
  destruct (Qlt_le_dec t 0) as [Hneg | Hpos].
  - right. split; [lra|]. apply Qabs_neg. lra.
  - left. split; [done|]. by apply Qabs_pos.
Qed.

Lemma bool_eq_of_iff (a b : bool) : (a = true <-> b = true) -> a = b.
Proof. destruct a, b; intuition congruence. Qed.

Lemma Q_equal_covers_level : equal_covers_level (double := Q).
Proof.
  intros x y Hxy%Q_lt_false Hyx%Q_lt_false.
  apply Q_approxEqual_true. left. lra.
Qed.

Lemma Q_equal_symmetric : equal_symmetric (double := Q).
Proof.
  intros x y. apply bool_eq_of_iff. simpl. rewrite !Q_approxEqual_true.
  destruct (Qabs_cases (x - y)) as [[? Hxy] | [? Hxy]],
           (Qabs_cases (y - x)) as [[? Hyx] | [? Hyx]];
    split; (intros [Heq | [H1 H2]]; [left; lra | right; lra]).
Qed.

Lemma Q_equal_respects_level : equal_respects_level (double := Q).
Proof.
  intros x y z Hxy%Q_lt_false Hyx%Q_lt_false.
  assert (Heq : (x == y)%Q) by lra.
  apply bool_eq_of_iff. simpl. rewrite !Q_approxEqual_true.
  by rewrite Heq.
Qed.

Lemma Q_equal_convex : equal_convex (double := Q).
Proof.
  intros x y z _ Hxy%Q_lt_true Hyz%Q_lt_true _. simpl.
  rewrite !Q_approxEqual_true. unfold e48.
  intros [Heq | [H1 H2]]; [lra|]. right.
  destruct (Qabs_cases (z - x)) as [[? Hzx] | [? Hzx]]; [|lra].
  destruct (Qabs_cases (z - y)) as [[? Hzy] | [? Hzy]]; [|lra].
  destruct (Qabs_cases x) as [[? Hx] | [? Hx]],
           (Qabs_cases y) as [[? Hy] | [? Hy]],
           (Qabs_cases z) as [[? Hz] | [? Hz]];
    split; lra.
Qed.

Lemma Q_zero_below_one : zero_below_one (double := Q).
Proof. split; reflexivity. Qed.

Lemma Q_sort_sorts :
  std_sort_sorts (double := Q) (sort_by before_or_level).
Proof.
  intros l. apply sort_before_or_level_sorted.
  - apply Q_lt_irreflexive.
  - apply Q_lt_transitive.
  - apply Q_lt_negatively_transitive.
Qed.

Lemma Q_sort_permutes :
  std_sort_permutes (double := Q) (sort_by before_or_level).
Proof. intros l. apply sort_by_Permutation. Qed.

(** * With a sort that keeps equal offsets in order

    Were the range sorted by [sort_by before_or_level], which behaves as
    [std::stable_sort] does, the step retained at an offset would be the
    earliest raw step with that offset. *)

Lemma stable_sort_earliest_wins {double : Type} `{DoubleOps double} :
  lt_irreflexive -> lt_transitive -> lt_negatively_transitive ->
  equal_covers_level -> equal_respects_level ->
  earliest_wins (sort_by before_or_level).
Proof.
  intros Hirrefl Htrans Hnegtrans Hlevel Hresp.
  intros rStartColor rEndColor raw s Hs.
  rewrite intermediate_build_steps in Hs.
  assert (Hk : In s (kept (sort_by before_or_level) (Some raw)))
    by (by destruct (flat _ _ _ _)).
  unfold kept in Hk. destruct raw as [|r raw]; [done|].
  rewrite first_at_head, <- (sort_before_or_level_all_at Hnegtrans),
    <- first_at_head.
  eapply survivors_first_at; [done..| |exact Hk].
  by apply sort_before_or_level_sorted.
Qed.

(** * The constructor at concrete inputs

    Colours and inputs for the examples, over the rational instance; the
    sort is the insertion sort that keeps equal offsets in order. *)

Abbreviation black := (MkBColor 0%Q 0%Q 0%Q).
Abbreviation white := (MkBColor 1%Q 1%Q 1%Q).
Abbreviation red := (MkBColor 1%Q 0%Q 0%Q).
Abbreviation green := (MkBColor 0%Q 1%Q 0%Q).
Abbreviation blue := (MkBColor 0%Q 0%Q 1%Q).
Abbreviation yellow := (MkBColor 1%Q 1%Q 0%Q).
Abbreviation Q_sort := (sort_by (double := Q) before_or_level).
Abbreviation float_black := (MkBColor 0%float 0%float 0%float).
Abbreviation float_sort := (stl_sort (double := float)).

(** Seventeen raw steps at offset 0.5, told apart by their red channel. *)
Abbreviation shade n := (MkBColor (n # 16)%Q 0%Q 0%Q).
Abbreviation tied_steps :=
  (map (fun n => MkColorStep 0.5%Q (shade n))
     [0; 1; 2; 3; 4; 5; 6; 7; 8; 9; 10; 11; 12; 13; 14; 15; 16]%Z).

(** A store with four objects: two explicitly constructed instances that
    differ in the border (addresses 0 and 1), the default instance
    (address 2), and an instance constructed as the first one was
    (address 3). *)
Abbreviation four_instances :=
  (exec_all Q_sort empty_store
     [CallCtor Linear 0%Q 0%Q 0%Q 0%Q black black None 0;
      CallCtor Linear 0.5%Q 0%Q 0%Q 0%Q black black None 0;
      CallDefault;
      CallCtor Linear 0%Q 0%Q 0%Q 0%Q black black None 0]).

Example flat_without_raw_steps :
  build_steps Q_sort black black None = [MkColorStep 0%Q black]
  /\ hasSingleColor
       (ImpFillGradientAttribute_ctor Q_sort Linear 0%Q 0%Q 0%Q 0%Q
          black black None 0) = true.
Proof. split; reflexivity. Qed.

Example two_colors_without_raw_steps :
  build_steps Q_sort black white None
  = [MkColorStep 0%Q black; MkColorStep 1%Q white].
Proof. reflexivity. Qed.

Example out_of_range_and_duplicates :
  build_steps Q_sort red blue
    (Some [MkColorStep (-0.2)%Q green; MkColorStep 0.3%Q green;
           MkColorStep 0.3%Q green; MkColorStep 1.2%Q yellow])
  = [MkColorStep 0%Q red; MkColorStep 0.3%Q green; MkColorStep 1%Q blue].
Proof. vm_compute. reflexivity. Qed.

Example unsorted_raw_steps :
  build_steps Q_sort red blue
    (Some [MkColorStep 0.75%Q yellow; MkColorStep 1%Q white;
           MkColorStep 0.25%Q green; MkColorStep 0%Q black;
           MkColorStep 0.75%Q black])
  = [MkColorStep 0%Q red; MkColorStep 0.25%Q green;
     MkColorStep 0.75%Q yellow; MkColorStep 1%Q blue].
Proof. vm_compute. reflexivity. Qed.

Example same_color_everywhere :
  build_steps Q_sort red red
    (Some [MkColorStep 0.25%Q red; MkColorStep 0.5%Q red])
  = [MkColorStep 0%Q red].
Proof. vm_compute. reflexivity. Qed.

(** ** The properties at concrete inputs *)

Lemma C1_witness :
  StronglySorted strictly_apart
    (build_steps Q_sort red blue
       (Some [MkColorStep 0.75%Q yellow; MkColorStep (-0.2)%Q green;
              MkColorStep 0.25%Q green; MkColorStep 0.75%Q black])).
Proof.
  exact (C1_strictly_ascending Q_sort Q_sort_sorts Q_lt_transitive
           Q_equal_covers_level Q_equal_symmetric Q_equal_convex
           Q_zero_below_one red blue _).
Defined.

Lemma C3_witness :
  exists mid,
    build_steps Q_sort red blue
      (Some [MkColorStep 1%Q green; MkColorStep 0.5%Q yellow])
    = MkColorStep 0%Q red :: mid ++ [MkColorStep 1%Q blue]
    /\ mid = kept Q_sort (Some [MkColorStep 1%Q green; MkColorStep 0.5%Q yellow])
    /\ Forall (fun s => fTools.moreOrEqual (getOffset s) 1%Q = false) mid.
Proof.
  assert (Hlen : 1 < length
                       (build_steps Q_sort red blue
                          (Some [MkColorStep 1%Q green;
                                 MkColorStep 0.5%Q yellow])))
    by (vm_compute; lia).
  exact (C3_last_stop_is_end Q_sort red blue
           (Some [MkColorStep 1%Q green; MkColorStep 0.5%Q yellow]) Hlen).
Defined.

Lemma C5_witness :
  build_steps Q_sort red red (Some [MkColorStep 0.5%Q blue])
  = [MkColorStep 0%Q red; MkColorStep 0.5%Q blue; MkColorStep 1%Q red].
Proof.
  exact (proj2 (proj2 (C5_end_stop_appended Q_sort Q_sort_permutes red red))
           0.5%Q blue eq_refl eq_refl eq_refl).
Defined.

Lemma C7_witness :
  In (MkColorStep 0.3%Q green)
     [MkColorStep 0.3%Q green; MkColorStep 0.3%Q yellow]
  /\ first_at 0.3%Q
       (Q_sort [MkColorStep 0.3%Q green; MkColorStep 0.3%Q yellow])
     = Some (MkColorStep 0.3%Q green)
  /\ (all_at 0.3%Q
        (Q_sort [MkColorStep 0.3%Q green; MkColorStep 0.3%Q yellow])
      = all_at 0.3%Q [MkColorStep 0.3%Q green; MkColorStep 0.3%Q yellow] ->
      first_at 0.3%Q [MkColorStep 0.3%Q green; MkColorStep 0.3%Q yellow]
      = Some (MkColorStep 0.3%Q green)).
Proof.
  assert (Hin : In (MkColorStep 0.3%Q green)
                  (intermediate
                     (build_steps Q_sort red blue
                        (Some [MkColorStep 0.3%Q green;
                               MkColorStep 0.3%Q yellow]))))
    by (vm_compute; left; reflexivity).
  exact (C7_first_sorted_wins Q_sort Q_sort_sorts Q_sort_permutes
           Q_lt_irreflexive Q_lt_transitive Q_lt_negatively_transitive
           Q_equal_covers_level Q_equal_respects_level red blue
           [MkColorStep 0.3%Q green; MkColorStep 0.3%Q yellow]
           (MkColorStep 0.3%Q green) Hin).
Defined.

Lemma C10_witness :
  exists mid tail_end,
    build_steps Q_sort red blue
      (Some [MkColorStep 0.75%Q yellow; MkColorStep 1.2%Q white;
             MkColorStep 0.25%Q green])
    = MkColorStep 0%Q red :: mid ++ tail_end
    /\ (tail_end = [] \/ tail_end = [MkColorStep 1%Q blue])
    /\ mid ⊆+ [MkColorStep 0.75%Q yellow; MkColorStep 1.2%Q white;
               MkColorStep 0.25%Q green]
    /\ Forall (fun s => In s [MkColorStep 0.75%Q yellow;
                              MkColorStep 1.2%Q white;
                              MkColorStep 0.25%Q green]) mid.
Proof.
  exact (C10_intermediate_from_raw Q_sort Q_sort_permutes red blue
           (Some [MkColorStep 0.75%Q yellow; MkColorStep 1.2%Q white;
                  MkColorStep 0.25%Q green])).
Defined.

(** In [four_instances]: two explicitly constructed instances with
    different borders, and an explicitly constructed instance with the
    values of the default constructor next to the default instance; then
    the latter two constructed from the empty store. *)
Lemma C8_witness :
  (fst (operator_eq (MkHandle 0) (MkHandle 1) four_instances) = true
   <-> equal_as_described four_instances (MkHandle 0) (MkHandle 1))
  /\ (fst (operator_eq (MkHandle 0) (MkHandle 2) four_instances) = true
      <-> equal_as_described four_instances (MkHandle 0) (MkHandle 2))
  /\ (fst (operator_eq (MkHandle 0) (MkHandle 3) four_instances) = true
      <-> equal_as_described four_instances (MkHandle 0) (MkHandle 3))
  /\ fields_compare_equal
       (deref (exec_all Q_sort empty_store
                 [CallCtor Linear 0%Q 0%Q 0%Q 0%Q black black None 0;
                  CallDefault]) 0)
       (deref (exec_all Q_sort empty_store
                 [CallCtor Linear 0%Q 0%Q 0%Q 0%Q black black None 0;
                  CallDefault]) 1)
  /\ fst (operator_eq (MkHandle 0) (MkHandle 1)
            (exec_all Q_sort empty_store
               [CallCtor Linear 0%Q 0%Q 0%Q 0%Q black black None 0;
                CallDefault])) = false
  /\ fst (operator_eq (MkHandle 1) (MkHandle 0)
            (exec_all Q_sort empty_store
               [CallCtor Linear 0%Q 0%Q 0%Q 0%Q black black None 0;
                CallDefault])) = false.
Proof.
  pose proof (proj1 (proj2 (C8_operator_eq Q_sort four_instances
                (proj1 (exec_all_ok Q_sort _ empty_store empty_store_ok))))
                Q_eq_reflexive) as Hdescribed.
  split; [apply Hdescribed; eexists; reflexivity|].
  split; [apply Hdescribed; eexists; reflexivity|].
  split; [apply Hdescribed; eexists; reflexivity|].
  exact (proj2 (proj2 (proj2 (proj2
           (C8_operator_eq Q_sort empty_store empty_store_ok))))
           eq_refl).
Defined.

(** What [operator==] returns in [four_instances]. *)
Example operator_eq_in_four_instances :
  fst (operator_eq (MkHandle 0) (MkHandle 0) four_instances) = true
  /\ fst (operator_eq (MkHandle 0) (MkHandle 1) four_instances) = false
  /\ fst (operator_eq (MkHandle 0) (MkHandle 2) four_instances) = false
  /\ fst (operator_eq (MkHandle 2) (MkHandle 0) four_instances) = false
  /\ fst (operator_eq (MkHandle 0) (MkHandle 3) four_instances) = true
  /\ fst (operator_eq (MkHandle 2) (MkHandle 2) four_instances) = true
  /\ fst (FillGradientAttribute_default four_instances) = MkHandle 2
  /\ fields_compare_equal (deref four_instances 0) (deref four_instances 2)
  /\ fields_compare_equal (deref four_instances 0) (deref four_instances 3)
  /\ ~ fields_compare_equal (deref four_instances 0) (deref four_instances 1).
Proof.
  do 7 (split; [vm_compute; reflexivity|]).
  split; [|split].
  - apply Imp_eq_compare. vm_compute. reflexivity.
  - apply Imp_eq_compare. vm_compute. reflexivity.
  - intros (_ & Hborder & _). vm_compute in Hborder. discriminate.
Qed.


(** ** C7 as stated fails *)

(** Up to 16 elements [std::sort] of libstdc++ is its insertion sort, which
    moves an element only past elements it is less than: two raw steps at
    one offset stay in order and the earlier one is retained. *)
Example two_tied_steps_keep_order :
  stl_sort [MkColorStep 0.5%Q green; MkColorStep 0.5%Q yellow]
  = [MkColorStep 0.5%Q green; MkColorStep 0.5%Q yellow]
  /\ build_steps stl_sort red blue
       (Some [MkColorStep 0.5%Q green; MkColorStep 0.5%Q yellow])
     = [MkColorStep 0%Q red; MkColorStep 0.5%Q green; MkColorStep 1%Q blue].
Proof. split; vm_compute; reflexivity. Qed.

(** From 17 elements on [std::sort] partitions first.  On [tied_steps] the
    median of three puts the step of index 8 in front, the partition then
    swaps the steps of indices 1 to 8 with those of indices 16 down to 9,
    and the final insertion sort moves nothing.  The step retained at
    offset 0.5 is the ninth raw step, not the first. *)
Lemma C7_counterexample :
  stl_sort tied_steps
  = map (fun n => MkColorStep 0.5%Q (shade n))
      [8; 16; 15; 14; 13; 12; 11; 10; 9; 0; 7; 6; 5; 4; 3; 2; 1]%Z
  /\ build_steps stl_sort red blue (Some tied_steps)
     = [MkColorStep 0%Q red; MkColorStep 0.5%Q (shade 8); MkColorStep 1%Q blue]
  /\ first_at 0.5%Q tied_steps = Some (MkColorStep 0.5%Q (shade 0))
  /\ ~ earliest_wins stl_sort.
Proof.
  split; [vm_compute; reflexivity|].
  split; [vm_compute; reflexivity|].
  split; [vm_compute; reflexivity|].
  intros Hwins.
  specialize (Hwins red blue tied_steps (MkColorStep 0.5%Q (shade 8))).
  assert (Hin : In (MkColorStep 0.5%Q (shade 8))
                  (intermediate (build_steps stl_sort red blue
                                   (Some tied_steps))))
    by (vm_compute; left; reflexivity).
  apply Hwins in Hin. vm_compute in Hin. discriminate.
Qed.

(** ** C8 as stated fails *)

(** Over IEEE doubles: an instance constructed with a NaN border is equal
    to itself, since [==] of the wrapper finds one object on both sides
    and does not compare the fields.  It is not the default instance, and
    its border does not compare equal to itself. *)
Lemma C8_counterexample :
  fst (FillGradientAttribute_ctor float_sort Linear nan 0%float 0%float
         0%float float_black float_black None 0 empty_store)
  = MkHandle 0
  /\ store_ok (snd (FillGradientAttribute_ctor float_sort Linear nan 0%float
                      0%float 0%float float_black float_black None 0
                      empty_store))
  /\ valid (snd (FillGradientAttribute_ctor float_sort Linear nan 0%float
                   0%float 0%float float_black float_black None 0
                   empty_store))
       (MkHandle 0)
  /\ mfBorder
       (deref (snd (FillGradientAttribute_ctor float_sort Linear nan 0%float
                      0%float 0%float float_black float_black None 0
                      empty_store)) 0)
     = nan
  /\ fst (operator_eq (MkHandle 0) (MkHandle 0)
            (snd (FillGradientAttribute_ctor float_sort Linear nan 0%float
                    0%float 0%float float_black float_black None 0
                    empty_store)))
     = true
  /\ ~ default_instance
         (snd (FillGradientAttribute_ctor float_sort Linear nan 0%float
                 0%float 0%float float_black float_black None 0
                 empty_store))
         (MkHandle 0)
  /\ ~ fields_compare_equal
         (deref (snd (FillGradientAttribute_ctor float_sort Linear nan
                        0%float 0%float 0%float float_black float_black
                        None 0 empty_store)) 0)
         (deref (snd (FillGradientAttribute_ctor float_sort Linear nan
                        0%float 0%float 0%float float_black float_black
                        None 0 empty_store)) 0)
  /\ ~ (fst (operator_eq (MkHandle 0) (MkHandle 0)
               (snd (FillGradientAttribute_ctor float_sort Linear nan
                       0%float 0%float 0%float float_black float_black
                       None 0 empty_store)))
        = true
        <-> equal_as_described
              (snd (FillGradientAttribute_ctor float_sort Linear nan
                      0%float 0%float 0%float float_black float_black
                      None 0 empty_store))
              (MkHandle 0) (MkHandle 0)).
Proof.
  assert (Hnotdefault :
    ~ default_instance
        (snd (FillGradientAttribute_ctor float_sort Linear nan 0%float
                0%float 0%float float_black float_black None 0
                empty_store))
        (MkHandle 0)).
  { unfold default_instance. vm_compute. discriminate. }
  assert (Hfields :
    ~ fields_compare_equal
        (deref (snd (FillGradientAttribute_ctor float_sort Linear nan
                       0%float 0%float 0%float float_black float_black
                       None 0 empty_store)) 0)
        (deref (snd (FillGradientAttribute_ctor float_sort Linear nan
                       0%float 0%float 0%float float_black float_black
                       None 0 empty_store)) 0)).
  { intros (_ & Hborder & _). vm_compute in Hborder. discriminate. }
  split; [reflexivity|].
  split; [apply ctor_ok, empty_store_ok|].
  split; [eexists; reflexivity|].
  split; [reflexivity|].
  split; [vm_compute; reflexivity|].
  split; [exact Hnotdefault|].
  split; [exact Hfields|].
  intros [Hdescribed _].
  destruct Hdescribed as [[Hdefault _] | (_ & _ & Hequal)].
  - vm_compute. reflexivity.
  - exact (Hnotdefault Hdefault).
  - exact (Hfields Hequal).
Qed.

(** The explicitly constructed instance at address 0 has the fields of the
    default instance at address 1, and the two are not equal. *)
Example equal_fields_but_not_default :
  Imp_eq
    (deref (exec_all Q_sort empty_store
              [CallCtor Linear 0%Q 0%Q 0%Q 0%Q black black None 0;
               CallDefault]) 1)
    (deref (exec_all Q_sort empty_store
              [CallCtor Linear 0%Q 0%Q 0%Q 0%Q black black None 0;
               CallDefault]) 0) = true
  /\ fst (operator_eq (MkHandle 0) (MkHandle 1)
            (exec_all Q_sort empty_store
               [CallCtor Linear 0%Q 0%Q 0%Q 0%Q black black None 0;
                CallDefault])) = false
  /\ fst (operator_eq (MkHandle 1) (MkHandle 1)
            (exec_all Q_sort empty_store
               [CallCtor Linear 0%Q 0%Q 0%Q 0%Q black black None 0;
                CallDefault])) = true
  /\ fst (operator_eq (MkHandle 0) (MkHandle 0)
            (exec_all Q_sort empty_store
               [CallCtor Linear 0%Q 0%Q 0%Q 0%Q black black None 0;
                CallDefault])) = true.
Proof. repeat split; vm_compute; reflexivity. Qed.

(** * The further properties at concrete inputs *)

Lemma Q_eq_symmetric : eq_symmetric (double := Q).
Proof.
  intros x y. apply bool_eq_of_iff. simpl. rewrite !Qeq_bool_iff.
  split; intros Heq; by rewrite Heq.
Qed.

Lemma Q_eq_transitive : eq_transitive (double := Q).
Proof.
  intros x y z Hxy%Qeq_bool_iff Hyz%Qeq_bool_iff. apply Qeq_bool_iff.
  by rewrite Hxy.
Qed.

Example loop_on_unsorted_band :
  run_loop_checked red 4
    (MkBand [MkColorStep 0%Q red; MkColorStep (-0.2)%Q green;
             MkColorStep 0.3%Q green; MkColorStep 0.3%Q yellow] 0 1 false)
  = Some (MkBand [MkColorStep 0%Q red; MkColorStep 0.3%Q green;
                  MkColorStep 0.3%Q green; MkColorStep 0.3%Q yellow]
            1 4 false).
Proof. vm_compute. reflexivity. Qed.

Lemma well_formed_kept_witness :
  build_steps Q_sort red blue
    (Some [MkColorStep 0.25%Q green; MkColorStep 0.75%Q yellow])
  = [MkColorStep 0%Q red; MkColorStep 0.25%Q green;
     MkColorStep 0.75%Q yellow; MkColorStep 1%Q blue].
Proof.
  assert (Hwf : well_formed
                  [MkColorStep 0.25%Q green; MkColorStep 0.75%Q yellow]).
  { split.
    - repeat constructor.
    - repeat constructor. }
  exact (well_formed_kept Q_sort Q_sort_sorts Q_sort_permutes
           Q_lt_irreflexive Q_lt_transitive red blue _ Hwf).
Defined.

Lemma build_steps_idempotent_witness :
  build_steps Q_sort red blue
    (Some (intermediate
             (build_steps Q_sort red blue
                (Some [MkColorStep (-0.2)%Q green; MkColorStep 0.3%Q green;
                       MkColorStep 0.3%Q yellow; MkColorStep 1.2%Q yellow]))))
  = build_steps Q_sort red blue
      (Some [MkColorStep (-0.2)%Q green; MkColorStep 0.3%Q green;
             MkColorStep 0.3%Q yellow; MkColorStep 1.2%Q yellow]).
Proof.
  exact (build_steps_idempotent Q_sort Q_sort_sorts Q_sort_permutes
           Q_lt_irreflexive Q_lt_transitive Q_equal_covers_level
           Q_equal_symmetric red blue _).
Defined.

Lemma build_steps_order_independent_witness :
  build_steps Q_sort red blue
    (Some [MkColorStep 0.75%Q yellow; MkColorStep 0.25%Q green;
           MkColorStep 0.75%Q yellow])
  = build_steps Q_sort red blue
      (Some [MkColorStep 0.25%Q green; MkColorStep 0.75%Q yellow;
             MkColorStep 0.75%Q yellow]).
Proof.
  assert (Hperm : [MkColorStep 0.75%Q yellow; MkColorStep 0.25%Q green;
                   MkColorStep 0.75%Q yellow]
                  ≡ₚ [MkColorStep 0.25%Q green; MkColorStep 0.75%Q yellow;
                      MkColorStep 0.75%Q yellow])
    by apply perm_swap.
  assert (Hties : ties_agree
                    [MkColorStep 0.75%Q yellow; MkColorStep 0.25%Q green;
                     MkColorStep 0.75%Q yellow]).
  { intros x y Hx Hy Hxy. simpl in Hx, Hy.
    destruct Hx as [<- | [<- | [<- | []]]], Hy as [<- | [<- | [<- | []]]];
      first [reflexivity | vm_compute in Hxy; discriminate]. }
  exact (build_steps_order_independent Q_sort Q_sort_sorts Q_sort_permutes
           red blue _ _ Hperm Hties).
Defined.

Lemma out_of_range_irrelevant_witness :
  (ties_agree
     (in_range [MkColorStep (-0.2)%Q green; MkColorStep 0.3%Q green;
                MkColorStep 1.2%Q yellow]) ->
   build_steps Q_sort red blue
     (Some (in_range [MkColorStep (-0.2)%Q green; MkColorStep 0.3%Q green;
                      MkColorStep 1.2%Q yellow]))
   = build_steps Q_sort red blue
       (Some [MkColorStep (-0.2)%Q green; MkColorStep 0.3%Q green;
              MkColorStep 1.2%Q yellow]))
  /\ (in_range [MkColorStep (-0.2)%Q green; MkColorStep 0.3%Q green;
                MkColorStep 1.2%Q yellow] = [] ->
      build_steps Q_sort red blue
        (Some [MkColorStep (-0.2)%Q green; MkColorStep 0.3%Q green;
               MkColorStep 1.2%Q yellow])
      = build_steps Q_sort red blue None).
Proof.
  exact (out_of_range_irrelevant Q_sort Q_sort_sorts Q_sort_permutes
           red blue _).
Defined.

Lemma hasSingleColor_one_color_witness :
  hasSingleColor
    (ImpFillGradientAttribute_ctor Q_sort Radial 0%Q 0.5%Q 0.5%Q 0%Q
       red red (Some [MkColorStep 0.5%Q red]) 0)
  = flat Q_sort red red (Some [MkColorStep 0.5%Q red])
  /\ (hasSingleColor
        (ImpFillGradientAttribute_ctor Q_sort Radial 0%Q 0.5%Q 0.5%Q 0%Q
           red red (Some [MkColorStep 0.5%Q red]) 0) = true
      <-> one_color
            (build_steps Q_sort red red (Some [MkColorStep 0.5%Q red]))).
Proof.
  exact (hasSingleColor_one_color Q_sort Q_eq_reflexive Radial 0%Q 0.5%Q
           0.5%Q 0%Q red red (Some [MkColorStep 0.5%Q red]) 0).
Defined.

Lemma same_arguments_equal_witness :
  mpFillGradientAttribute
    (fst (FillGradientAttribute_ctor Q_sort Axial 0%Q 0%Q 0%Q 0%Q red blue
            None 16 empty_store))
  <> mpFillGradientAttribute
       (fst (FillGradientAttribute_ctor Q_sort Axial 0%Q 0%Q 0%Q 0%Q red blue
               None 16
               (exec_all Q_sort
                  (snd (FillGradientAttribute_ctor Q_sort Axial 0%Q 0%Q 0%Q
                          0%Q red blue None 16 empty_store))
                  [CallDefault])))
  /\ fst (operator_eq
            (fst (FillGradientAttribute_ctor Q_sort Axial 0%Q 0%Q 0%Q 0%Q red
                    blue None 16 empty_store))
            (fst (FillGradientAttribute_ctor Q_sort Axial 0%Q 0%Q 0%Q 0%Q red
                    blue None 16
                    (exec_all Q_sort
                       (snd (FillGradientAttribute_ctor Q_sort Axial 0%Q 0%Q
                               0%Q 0%Q red blue None 16 empty_store))
                       [CallDefault])))
            (snd (FillGradientAttribute_ctor Q_sort Axial 0%Q 0%Q 0%Q 0%Q red
                    blue None 16
                    (exec_all Q_sort
                       (snd (FillGradientAttribute_ctor Q_sort Axial 0%Q 0%Q
                               0%Q 0%Q red blue None 16 empty_store))
                       [CallDefault])))) = true
  /\ fst (operator_eq
            (fst (FillGradientAttribute_ctor Q_sort Axial 0%Q 0%Q 0%Q 0%Q red
                    blue None 16
                    (exec_all Q_sort
                       (snd (FillGradientAttribute_ctor Q_sort Axial 0%Q 0%Q
                               0%Q 0%Q red blue None 16 empty_store))
                       [CallDefault])))
            (fst (FillGradientAttribute_ctor Q_sort Axial 0%Q 0%Q 0%Q 0%Q red
                    blue None 16 empty_store))
            (snd (FillGradientAttribute_ctor Q_sort Axial 0%Q 0%Q 0%Q 0%Q red
                    blue None 16
                    (exec_all Q_sort
                       (snd (FillGradientAttribute_ctor Q_sort Axial 0%Q 0%Q
                               0%Q 0%Q red blue None 16 empty_store))
                       [CallDefault])))) = true.
Proof.
  exact (same_arguments_equal Q_sort Q_eq_reflexive empty_store Axial 0%Q 0%Q
           0%Q 0%Q red blue None 16 [CallDefault] empty_store_ok).
Defined.

Lemma operator_eq_equivalence_witness :
  (forall a, fst (operator_eq a a (empty_store (double := Q))) = true)
  /\ (forall a,
        fst (operator_eq
               (fst (FillGradientAttribute_copy a (empty_store (double := Q))))
               a empty_store) = true
        /\ fst (isDefault
                  (fst (FillGradientAttribute_copy a
                          (empty_store (double := Q)))) empty_store)
           = fst (isDefault a empty_store)
        /\ snd (FillGradientAttribute_copy a (empty_store (double := Q)))
           = empty_store)
  /\ (forall a b,
        fst (operator_eq a b (empty_store (double := Q)))
        = fst (operator_eq b a empty_store))
  /\ (forall a b c,
        fst (operator_eq a b (empty_store (double := Q))) = true ->
        fst (operator_eq b c (empty_store (double := Q))) = true ->
        fst (operator_eq a c (empty_store (double := Q))) = true).
Proof.
  exact (operator_eq_equivalence Q_eq_symmetric Q_eq_transitive empty_store).
Defined.

Lemma accessors_return_arguments_witness :
  fst (getStyle
         (fst (FillGradientAttribute_ctor Q_sort Radial 0.1%Q 0.5%Q 0.5%Q
                 0%Q red blue (Some [MkColorStep 0.5%Q green]) 16
                 empty_store))
         (exec_all Q_sort
            (snd (FillGradientAttribute_ctor Q_sort Radial 0.1%Q 0.5%Q 0.5%Q
                    0%Q red blue (Some [MkColorStep 0.5%Q green]) 16
                    empty_store))
            [CallDefault])) = Radial
  /\ fst (getColorSteps
            (fst (FillGradientAttribute_ctor Q_sort Radial 0.1%Q 0.5%Q 0.5%Q
                    0%Q red blue (Some [MkColorStep 0.5%Q green]) 16
                    empty_store))
            (exec_all Q_sort
               (snd (FillGradientAttribute_ctor Q_sort Radial 0.1%Q 0.5%Q
                       0.5%Q 0%Q red blue (Some [MkColorStep 0.5%Q green]) 16
                       empty_store))
               [CallDefault]))
     = [MkColorStep 0%Q red; MkColorStep 0.5%Q green; MkColorStep 1%Q blue].
Proof.
  refine (match accessors_return_arguments Q_sort empty_store Radial 0.1%Q
                  0.5%Q 0.5%Q 0%Q red blue (Some [MkColorStep 0.5%Q green])
                  16 [CallDefault] empty_store_ok
          with
          | conj H1 (conj _ (conj _ (conj _ (conj _ (conj _ (conj H7 _)))))) =>
              conj H1 H7
          end).
Defined.

Lemma end_step_test_holds_witness :
  (1 <? S (curr
             (run_loop red
                (length (MkColorStep 0%Q red
                           :: Q_sort [MkColorStep 0.5%Q blue]))
                (MkBand (MkColorStep 0%Q red
                           :: Q_sort [MkColorStep 0.5%Q blue])
                   0 1 (BColor_eq red red)))))
  || BColor_ne red red = true.
Proof.
  exact (end_step_test_holds Q_sort red red (MkColorStep 0.5%Q blue) []
           eq_refl).
Defined.
